(** * amazon-cloudwatch-agent-operator: configuration upgrade, reconcile and
      admission checks

    A shallow embedding of
    - [apis/v1alpha1/instrumentation_webhook.go] (environment validation),
    - [pkg/collector/upgrade/v0_2_10.go] and [v0_31_0.go] (collector upgrade
      steps),
    - the ServiceAccount reconciler ([ServiceAccounts],
      [expectedServiceAccounts], [deleteServiceAccounts]),
    - the instrumentation batch upgrader ([ManagedInstances], [upgrade]),
    together with the properties the specification states about them.

    Conventions.  A Go [error] result is an [option error] ([None] is [nil]).
    A Go map that may be [nil] is an [option (gmap _ _)].  Calls to the
    cluster client are threaded through an explicit store that also keeps
    the log of the calls issued.  A run-time panic is an outcome of its own. *)

From Stdlib Require Import String Ascii ZArith List DecimalString.
From stdpp Require Import gmap strings list fin_maps.

#[local] Set Warnings "-register-all".

(** ** Errors *)

(** Go error values.  [Errorf msg e] is [fmt.Errorf(msg + ": %w", e)];
    [ErrorMsg] is an error built without wrapping.  The three [Status*]
    values are the API-status errors of the cluster client. *)
Inductive error : Type :=
  | ErrInvalidYAML
  | StatusNotFound
  | StatusConflict
  | StatusAlreadyExists
  | ErrOther (msg : string)
  | ErrorMsg (msg : string)
  | Errorf (msg : string) (wrapped : error).

#[global] Instance error_eq_dec : EqDecision error.
Proof. solve_decision. Defined.

(** [k8serrors.IsNotFound]: looks through wrapping. *)
Fixpoint IsNotFound (e : error) : bool :=
  match e with
  | StatusNotFound => true
  | Errorf _ w => IsNotFound w
  | _ => false
  end.

(** [strings.HasPrefix s prefix]. *)
Definition HasPrefix (s p : string) : bool := String.prefix p s.

Definition dquote : string := String (ascii_of_nat 34) EmptyString.

(** ** apis/v1alpha1: instrumentation webhook *)

Module Webhook.

Definition envPrefix : string := "OTEL_".
Definition envSplunkPrefix : string := "SPLUNK_".

(** [corev1.EnvVar], the fields the webhook reads. *)
Record EnvVar : Type := { Name : string; Value : string }.

Definition validateEnv (envs : list EnvVar) : option error :=
  (fix loop (l : list EnvVar) : option error :=
     match l with
     | [] => None
     | env :: rest =>
         if negb (HasPrefix (Name env) envPrefix)
            && negb (HasPrefix (Name env) envSplunkPrefix)
         then Some (ErrorMsg ("env name should start with " +:+ dquote +:+ "OTEL_"
                                +:+ dquote +:+ " or " +:+ dquote +:+ "SPLUNK_" +:+ dquote
                                +:+ ": " +:+ Name env))
         else loop rest
     end) envs.

(** The part of [validate] after the sampler switch: the two lists, in the
    order of the source. *)
Definition validate_envs (specEnv javaEnv : list EnvVar) : option error :=
  match validateEnv specEnv with
  | Some err => Some err
  | None =>
      match validateEnv javaEnv with
      | Some err => Some err
      | None => None
      end
  end.

(** A name is accepted when it carries one of the two prefixes. *)
Definition accepted (env : EnvVar) : Prop :=
  HasPrefix (Name env) envPrefix = true ∨ HasPrefix (Name env) envSplunkPrefix = true.

End Webhook.

(** ** The configuration document *)

(** What [yaml.v2] decodes into [map[interface{}]interface{}]: scalars typed
    as null, bool, integer or string; sequences; maps keyed by scalars.  A
    map is kept as an association list: the order of the list is the order
    in which a [range] over the Go map visits it, which the run time leaves
    unspecified, so every statement below is made for all orders. *)
Module Yaml.

Inductive scalar : Type :=
  | SNull
  | SBool (b : bool)
  | SInt (z : Z)
  | SStr (s : string).

Inductive value : Type :=
  | VScalar (s : scalar)
  | VSeq (items : list value)
  | VMap (entries : list (scalar * value)).

Abbreviation document := (list (scalar * value)).

#[global] Instance scalar_eq_dec : EqDecision scalar.
Proof. solve_decision. Defined.

(** [m[k]] with the comma-ok result. *)
Fixpoint lookup_key (k : scalar) (m : document) : option value :=
  match m with
  | [] => None
  | (k', v) :: rest => if decide (k' = k) then Some v else lookup_key k rest
  end.

(** [m[k] = v]: overwrite in place, or add. *)
Fixpoint set_key (k : scalar) (v : value) (m : document) : document :=
  match m with
  | [] => [(k, v)]
  | (k', v') :: rest =>
      if decide (k' = k) then (k, v) :: rest else (k', v') :: set_key k v rest
  end.

(** *** Reading text: the block-mapping subset

    Lines of the form [key: value] or [key:], nested by indentation;
    blank lines and [#] comments; [{}], [[]] and flow sequences of plain
    scalars as inline values; plain and double-quoted scalars.  Text
    outside this subset is not meant to be read the way [yaml.v2] does. *)

Definition is_space (c : ascii) : bool :=
  match c with
  | " "%char => true
  | "009"%char => true
  | "013"%char => true
  | _ => false
  end.

Definition is_digit (c : ascii) : bool :=
  let n := nat_of_ascii c in (48 <=? n)%nat && (n <=? 57)%nat.

Fixpoint drop_spaces (l : list ascii) : list ascii :=
  match l with
  | c :: rest => if is_space c then drop_spaces rest else l
  | [] => []
  end.

Definition trim (l : list ascii) : list ascii :=
  drop_spaces (rev (drop_spaces (rev l))).

Fixpoint indent_of (l : list ascii) : nat :=
  match l with
  | " "%char :: rest => S (indent_of rest)
  | _ => 0
  end.

(** Cut a comment: a [#] at the start of the line or after a space. *)
Fixpoint strip_comment (prev_space : bool) (l : list ascii) : list ascii :=
  match l with
  | [] => []
  | "#"%char :: rest => if prev_space then [] else "#"%char :: strip_comment false rest
  | c :: rest => c :: strip_comment (is_space c) rest
  end.

Fixpoint split_on (sep : ascii) (l : list ascii) : list (list ascii) :=
  match l with
  | [] => [[]]
  | c :: rest =>
      if decide (c = sep) then [] :: split_on sep rest
      else match split_on sep rest with
           | cur :: more => (c :: cur) :: more
           | [] => [[c]]
           end
  end.

Fixpoint digits_value (acc : Z) (l : list ascii) : Z :=
  match l with
  | [] => acc
  | c :: rest => digits_value (10 * acc + Z.of_nat (nat_of_ascii c - 48)) rest
  end.

Definition all_digits (l : list ascii) : bool :=
  match l with [] => false | _ => forallb is_digit l end.

Definition is_quote (c : ascii) : bool := bool_decide (c = ascii_of_nat 34).

Definition unquote (l : list ascii) : option (list ascii) :=
  match l with
  | c :: rest =>
      match rev rest with
      | c' :: inner => if is_quote c && is_quote c' then Some (rev inner) else None
      | [] => None
      end
  | [] => None
  end.

(** Tag resolution of a plain scalar. *)
Definition resolve (l : list ascii) : scalar :=
  match unquote l with
  | Some inner => SStr (string_of_list_ascii inner)
  | None =>
      let s := string_of_list_ascii l in
      if decide (s = EmptyString) then SNull
      else if decide (s = "null") then SNull
      else if decide (s = "~") then SNull
      else if decide (s = "true") then SBool true
      else if decide (s = "false") then SBool false
      else if all_digits l then SInt (digits_value 0 l)
      else match l with
           | "-"%char :: ds =>
               if all_digits ds then SInt (- digits_value 0 ds) else SStr s
           | _ => SStr s
           end
  end.

(** A line [key: value] or [key:]; the separator is the first colon that
    is followed by a space or ends the line. *)
Fixpoint split_colon (l : list ascii) : option (list ascii * list ascii) :=
  match l with
  | [] => None
  | ":"%char :: [] => Some ([], [])
  | ":"%char :: (" "%char :: rest) => Some ([], rest)
  | c :: rest =>
      match split_colon rest with
      | Some (k, v) => Some (c :: k, v)
      | None => None
      end
  end.

Definition inline_value (l : list ascii) : value :=
  let s := string_of_list_ascii l in
  if decide (s = "{}") then VMap []
  else if decide (s = "[]") then VSeq []
  else match l with
       | "["%char :: rest =>
           match rev rest with
           | "]"%char :: inner =>
               VSeq (map (λ it, VScalar (resolve (trim it))) (split_on ","%char (rev inner)))
           | _ => VScalar (resolve l)
           end
       | _ => VScalar (resolve l)
       end.

(** One significant line: indentation, key, inline value if any. *)
Record line : Type := { indent : nat; key : scalar; inline : option value }.

Definition read_line (raw : list ascii) : option (option line) :=
  let body := rev (drop_spaces (rev (strip_comment true raw))) in
  match drop_spaces body with
  | [] => Some None
  | content =>
      if decide (string_of_list_ascii content = "---") then Some None
      else match split_colon content with
           | None => None
           | Some (k, v) =>
               let v' := trim v in
               Some (Some {| indent := indent_of body;
                             key := resolve (trim k);
                             inline := match v' with
                                       | [] => None
                                       | _ => Some (inline_value v')
                                       end |})
           end
  end.

Fixpoint read_lines (raws : list (list ascii)) : option (list line) :=
  match raws with
  | [] => Some []
  | raw :: rest =>
      match read_line raw, read_lines rest with
      | Some (Some ln), Some lns => Some (ln :: lns)
      | Some None, Some lns => Some lns
      | _, _ => None
      end
  end.

(** An entry read before [more]; a later entry with the same key wins. *)
Definition add_entry (k : scalar) (v : value) (more : document) : document :=
  match lookup_key k more with
  | Some _ => more
  | None => (k, v) :: more
  end.

(** The entries of the block at indentation [ind], and the lines left. *)
Fixpoint parse_block (fuel ind : nat) (ls : list line) : option (document * list line) :=
  match fuel with
  | 0 => None
  | S fuel' =>
      match ls with
      | [] => Some ([], [])
      | ln :: rest =>
          if (indent ln <? ind)%nat then Some ([], ls)
          else if (ind <? indent ln)%nat then None
          else
            match inline ln with
            | Some v =>
                match parse_block fuel' ind rest with
                | Some (more, todo) => Some (add_entry (key ln) v more, todo)
                | None => None
                end
            | None =>
                let nested :=
                  match rest with
                  | nxt :: _ =>
                      if (ind <? indent nxt)%nat
                      then match parse_block fuel' (indent nxt) rest with
                           | Some (sub, todo) => Some (VMap sub, todo)
                           | None => None
                           end
                      else Some (VScalar SNull, rest)
                  | [] => Some (VScalar SNull, rest)
                  end in
                match nested with
                | Some (v, todo) =>
                    match parse_block fuel' ind todo with
                    | Some (more, todo') => Some (add_entry (key ln) v more, todo')
                    | None => None
                    end
                | None => None
                end
            end
      end
  end.

(** [yaml.Unmarshal] into a fresh map: [None] is a decoding error. *)
Definition Unmarshal (text : string) : option document :=
  match read_lines (split_on "010"%char (list_ascii_of_string text)) with
  | None => None
  | Some [] => Some []
  | Some (first :: rest) =>
      match parse_block (S (S (length rest))) (indent first) (first :: rest) with
      | Some (doc, []) => Some doc
      | _ => None
      end
  end.

(** *** Writing text: block style, keys sorted

    The layout of [yaml.v2]: two spaces per level, a sequence under a key
    at the level of the key, empty collections in flow style, a string
    double-quoted when it would not be read back as that string.  Keys are
    ordered null, booleans, integers, strings; strings by their bytes. *)

Definition scalar_leb (a b : scalar) : bool :=
  match a, b with
  | SNull, _ => true
  | _, SNull => false
  | SBool x, SBool y => implb x y
  | SBool _, _ => true
  | _, SBool _ => false
  | SInt x, SInt y => (x <=? y)%Z
  | SInt _, _ => true
  | _, SInt _ => false
  | SStr x, SStr y => String.leb x y
  end.

Fixpoint insert_sorted (kv : scalar * value) (m : document) : document :=
  match m with
  | [] => [kv]
  | kv' :: rest =>
      if scalar_leb (fst kv) (fst kv') then kv :: m else kv' :: insert_sorted kv rest
  end.

Definition sort_entries (m : document) : document := foldr insert_sorted [] m.

Fixpoint sort_keys (v : value) : value :=
  match v with
  | VScalar s => VScalar s
  | VSeq items => VSeq (map sort_keys items)
  | VMap entries => VMap (sort_entries (map (λ kv, (fst kv, sort_keys (snd kv))) entries))
  end.

Definition plain_safe (l : list ascii) : bool :=
  match l with
  | [] => false
  | c :: _ =>
      negb (is_space c) && negb (bool_decide (c = "["%char)) && negb (bool_decide (c = "{"%char))
      && bool_decide (resolve l = SStr (string_of_list_ascii l))
      && bool_decide (split_colon l = None)
      && bool_decide (strip_comment true l = l)
      && bool_decide (trim l = l)
  end.

Definition emit_scalar (s : scalar) : string :=
  match s with
  | SNull => "null"
  | SBool true => "true"
  | SBool false => "false"
  | SInt z => NilZero.string_of_int (Z.to_int z)
  | SStr str =>
      if plain_safe (list_ascii_of_string str) then str
      else String (ascii_of_nat 34) (str +:+ String (ascii_of_nat 34) EmptyString)
  end.

Definition shift (n : nat) (ls : list (nat * string)) : list (nat * string) :=
  map (λ l, (n + fst l, snd l)) ls.

Definition dash (ls : list (nat * string)) : list (nat * string) :=
  match ls with
  | [] => []
  | (i, s) :: rest => (i, "- " +:+ s) :: shift 2 rest
  end.

Definition inlineable (v : value) : bool :=
  match v with
  | VScalar _ | VSeq [] | VMap [] => true
  | _ => false
  end.

Definition nesting (v : value) : nat :=
  match v with VMap _ => 2 | _ => 0 end.

(** The lines of a value, each with its indentation relative to the value. *)
Fixpoint emit (v : value) : list (nat * string) :=
  match v with
  | VScalar s => [(0, emit_scalar s)]
  | VSeq [] => [(0, "[]")]
  | VMap [] => [(0, "{}")]
  | VSeq items => flat_map (λ it, dash (emit it)) items
  | VMap entries =>
      flat_map (λ kv,
          match emit (snd kv) with
          | [(_, txt)] =>
              if inlineable (snd kv) then [(0, emit_scalar (fst kv) +:+ ": " +:+ txt)]
              else (0, emit_scalar (fst kv) +:+ ":") :: shift (nesting (snd kv)) [(0, txt)]
          | ls => (0, emit_scalar (fst kv) +:+ ":") :: shift (nesting (snd kv)) ls
          end) entries
  end.

Fixpoint spaces (n : nat) : string :=
  match n with
  | 0 => EmptyString
  | S n' => String " " (spaces n')
  end.

Definition render (ls : list (nat * string)) : string :=
  foldr (λ l acc, spaces (fst l) +:+ snd l +:+ String "010" acc) EmptyString ls.

(** [yaml.Marshal] of a decoded map. *)
Definition Marshal (doc : document) : string :=
  render (emit (sort_keys (VMap doc))).

End Yaml.

(** ** pkg/collector/adapters *)

Module Adapters.

(** Modelled from the spec: [adapters.ConfigFromString] is declared outside
    the sources at hand (only its test is among them).  The spec gives its
    contract: [parse(text) -> ConfigDocument | ParseError], a blank input
    yields an empty document, malformed text yields the parse error.  The
    two Go results are kept apart, document and error, so that "never
    both" is a statement rather than a typing fact. *)
Definition ConfigFromString (configStr : string)
  : option Yaml.document * option error :=
  match Yaml.Unmarshal configStr with
  | Some config => (Some config, None)
  | None => (None, Some ErrInvalidYAML)
  end.

(** A text of spaces, tabs, carriage returns and line feeds only. *)
Definition blank (text : string) : bool :=
  forallb (λ c, Yaml.is_space c || bool_decide (c = "010"%char))
          (list_ascii_of_string text).

End Adapters.

(** ** apis/v1alpha1: the collector specification *)

Module V1alpha1.

Record AmazonCloudWatchAgentSpec : Type :=
  { Mode : string; ServiceAccount : string; Config : string }.

Record AmazonCloudWatchAgent : Type :=
  { Name : string; Namespace : string; Spec : AmazonCloudWatchAgentSpec }.

(** Modelled from the spec: the mode constants are declared outside the
    sources at hand; the spec names the sidecar mode among the closed set
    of deployment modes. *)
Definition ModeSidecar : string := "sidecar".

(** [otelcol.Spec.Config = text]. *)
Definition with_Config (text : string) (a : AmazonCloudWatchAgent) : AmazonCloudWatchAgent :=
  {| Name := Name a; Namespace := Namespace a;
     Spec := {| Mode := Mode (Spec a); ServiceAccount := ServiceAccount (Spec a);
                Config := text |} |}.

End V1alpha1.

(** ** pkg/collector/upgrade *)

Module Upgrade.
Import Yaml V1alpha1.

(** The library functions a step calls: the two that read and write the
    embedded text, and [Quote], the quoting that [fmt.Sprintf] applies to
    a string under the verb [%q] ([strconv.Quote]).  They are kept as an
    interface: the statements about the steps hold for every
    implementation; [yaml_codec] below is the one used to run examples. *)
Class Codec : Type :=
  { ConfigFromString : string → option document * option error;
    Marshal : document → string * option error;
    Quote : string → string }.

(** [strconv.Quote] on bytes: the text between double quotes, a double
    quote and a backslash behind a backslash, the control characters as
    [\a \b \f \n \r \t \v] or as [\x] and two hexadecimal digits, the
    byte 127 as [\x7f], every other byte below 128 as it is.  A byte above
    127 is copied, which is what Go does with a printable rune in valid
    UTF-8; Go escapes the other runes from Unicode tables that are not
    carried here. *)
Definition backslash : ascii := ascii_of_nat 92.

Definition lowerhex (n : nat) : ascii :=
  nth n (list_ascii_of_string "0123456789abcdef") "0"%char.

Definition escaped (c : ascii) : string := String backslash (String c EmptyString).

Definition quote_byte (c : ascii) : string :=
  let n := nat_of_ascii c in
  if ((n =? 34) || (n =? 92))%nat then escaped c
  else if (n =? 7)%nat then escaped "a"
  else if (n =? 8)%nat then escaped "b"
  else if (n =? 12)%nat then escaped "f"
  else if (n =? 10)%nat then escaped "n"
  else if (n =? 13)%nat then escaped "r"
  else if (n =? 9)%nat then escaped "t"
  else if (n =? 11)%nat then escaped "v"
  else if ((n <? 32) || (n =? 127))%nat
       then String backslash
              (String "x" (String (lowerhex (n / 16))
                             (String (lowerhex (n mod 16)) EmptyString)))
  else String c EmptyString.

Fixpoint quote_bytes (s : string) : string :=
  match s with
  | EmptyString => EmptyString
  | String c rest => quote_byte c +:+ quote_bytes rest
  end.

Definition strconv_Quote (s : string) : string := dquote +:+ quote_bytes s +:+ dquote.

#[global] Instance yaml_codec : Codec :=
  {| ConfigFromString := Adapters.ConfigFromString;
     Marshal := λ doc, (Yaml.Marshal doc, None);
     Quote := strconv_Quote |}.

(** An event handed to [u.Recorder]. *)
Record Event : Type := { eventtype : string; reason : string; message : string }.

(** The steps receive a pointer.  [objects] holds what the pointers of the
    caller refer to; [recorded] is what [u.Recorder] has received. *)
Record state : Type :=
  { objects : gmap positive AmazonCloudWatchAgent; recorded : list Event }.

Inductive outcome : Type :=
  | Returned (st : state) (res : positive) (err : option error)
  | Panicked (st : state).

Definition record_events (evs : list Event) (st : state) : state :=
  {| objects := objects st; recorded := recorded st ++ evs |}.

Definition store_Config (p : positive) (text : string) (st : state) : state :=
  {| objects := alter (with_Config text) p (objects st); recorded := recorded st |}.

(** v0.2.10: the skeleton step. *)
Definition upgrade0_2_10 (otelcol : positive) (st : state) : outcome :=
  Returned st otelcol None.

(** How a loop ends: it ran through, the function returned from inside
    it, or a type assertion without comma-ok failed. *)
Inductive loop (A : Type) : Type :=
  | Through (a : A) (evs : list Event)
  | Left_early (evs : list Event)
  | Crashed (evs : list Event).
Arguments Through {A} a evs.
Arguments Left_early {A} evs.
Arguments Crashed {A} evs.

Section Step.
Context `{Codec}.

(** The event of line 50: the receiver's key goes through [%q]. *)
Definition dropped_event (k : string) : Event :=
  {| eventtype := "Normal"; reason := "Upgrade";
     message := "upgrade to v0.31.0 dropped the 'metrics_schema' field from "
                  +:+ Quote k +:+ " receiver" |}.

(** The inner [range influxdbConfig]: every field whose name starts with
    [metrics_schema] is deleted, with one event each. *)
Fixpoint drop_metrics_schema (k : string) (fields : document) : loop document :=
  match fields with
  | [] => Through [] []
  | (SStr fieldKey, fv) :: rest =>
      if HasPrefix fieldKey "metrics_schema"
      then match drop_metrics_schema k rest with
           | Through kept evs => Through kept (dropped_event k :: evs)
           | Left_early evs => Left_early (dropped_event k :: evs)
           | Crashed evs => Crashed (dropped_event k :: evs)
           end
      else match drop_metrics_schema k rest with
           | Through kept evs => Through ((SStr fieldKey, fv) :: kept) evs
           | other => other
           end
  | (_, _) :: _ => Crashed []
  end.

(** The outer [range receivers]. *)
Fixpoint scan_receivers (receivers : document) : loop document :=
  match receivers with
  | [] => Through [] []
  | (SStr k, v) :: rest =>
      if HasPrefix k "influxdb"
      then match v with
           | VMap influxdbConfig =>
               match drop_metrics_schema k influxdbConfig with
               | Through kept evs =>
                   match scan_receivers rest with
                   | Through out evs' => Through ((SStr k, VMap kept) :: out) (evs ++ evs')
                   | Left_early evs' => Left_early (evs ++ evs')
                   | Crashed evs' => Crashed (evs ++ evs')
                   end
               | Left_early evs => Left_early evs
               | Crashed evs => Crashed evs
               end
           | _ => Left_early []
           end
      else match scan_receivers rest with
           | Through out evs => Through ((SStr k, v) :: out) evs
           | other => other
           end
  | (_, _) :: _ => Crashed []
  end.

Definition upgrade0_31_0 (otelcol : positive) (st : state) : outcome :=
  match objects st !! otelcol with
  | None => Panicked st
  | Some obj =>
      if (String.length (Config (Spec obj)) =? 0)%nat then Returned st otelcol None
      else
        match ConfigFromString (Config (Spec obj)) with
        | (_, Some err) =>
            Returned st otelcol
              (Some (Errorf "couldn't upgrade to v0.31.0, failed to parse configuration" err))
        | (parsed, None) =>
            let cfg := default [] parsed in
            match lookup_key (SStr "receivers") cfg with
            | Some (VMap receivers) =>
                match scan_receivers receivers with
                | Crashed evs => Panicked (record_events evs st)
                | Left_early evs => Returned (record_events evs st) otelcol None
                | Through receivers' evs =>
                    let st' := record_events evs st in
                    match Marshal (set_key (SStr "receivers") (VMap receivers') cfg) with
                    | (_, Some err) =>
                        Returned st' otelcol
                          (Some (Errorf "couldn't upgrade to v0.31.0, failed to marshall back configuration" err))
                    | (res, None) => Returned (store_Config otelcol res st') otelcol None
                    end
                end
            | _ => Returned st otelcol None
            end
        end
  end.

End Step.

(** The embedded text of the object a pointer refers to. *)
Definition text_behind (st : state) (p : positive) : option string :=
  (λ obj, Config (Spec obj)) <$> objects st !! p.

(** A state with one collector, behind pointer [1], and no event yet. *)
Definition single (text : string) : state :=
  {| objects := {[ 1%positive := {| Name := "agent"; Namespace := "monitoring";
                                    Spec := {| Mode := "deployment";
                                               ServiceAccount := EmptyString;
                                               Config := text |} |} ]};
     recorded := [] |}.

(** Sample configurations: one whose receivers section is a scalar; one
    already upgraded, written with a comment and its sections out of key
    order; one with an integer receiver key; one that still carries the
    deprecated field. *)
Definition text_scalar_receivers : string :=
"exporters:
  logging: {}
receivers: none
".

Definition text_upgraded : string :=
"# collector pipeline
receivers:
  otlp: {}
exporters:
  logging: {}
".

Definition doc_upgraded : document :=
  [(SStr "receivers", VMap [(SStr "otlp", VMap [])]);
   (SStr "exporters", VMap [(SStr "logging", VMap [])])].

Definition text_integer_key : string :=
"receivers:
  1: {}
".

Definition text_deprecated : string :=
"receivers:
  influxdb/in:
    endpoint: 0.0.0.0:8080
    metrics_schema: telegraf-prometheus-v1
".

(** A receiver that the step would touch: an [influxdb...] entry holding a
    [metrics_schema...] field. *)
Definition targets_field (fields : document) : Prop :=
  ∃ fieldKey fv, (SStr fieldKey, fv) ∈ fields ∧ HasPrefix fieldKey "metrics_schema" = true.

Definition targets_receiver (receivers : document) : Prop :=
  ∃ k fields, (SStr k, VMap fields) ∈ receivers
              ∧ HasPrefix k "influxdb" = true ∧ targets_field fields.

(** Every key of the receivers map, and of every [influxdb...] entry that
    is a map, is a string. *)
Definition string_keys (m : document) : Prop :=
  ∀ k v, (k, v) ∈ m → ∃ s, k = SStr s.

Definition receivers_string_keyed (receivers : document) : Prop :=
  string_keys receivers
  ∧ ∀ k fields, (SStr k, VMap fields) ∈ receivers →
                HasPrefix k "influxdb" = true → string_keys fields.

End Upgrade.

(** ** The cluster client *)

(** The object store the reconcilers talk to ([client.Client] of the
    controller runtime), for one kind of object.  Objects are held by
    identity, namespace and name; a call may be answered by an error that
    the store injects ([faults], one entry consumed by each call, [None] or
    an exhausted schedule meaning that the store answers normally); every
    call is logged with the error it was answered by. *)
Module Client.

Abbreviation key := (string * string)%type.
Abbreviation labels := (gmap string string).

(** What the client needs of an object kind ([client.Object]). *)
Class Resource (Obj : Type) : Type :=
  { Body : Type;
    key_of : Obj → key;
    body_of : Obj → Body;
    object_of : key → Body → Obj;
    labels_of : Body → option labels;
    key_of_object : ∀ k b, key_of (object_of k b) = k;
    body_of_object : ∀ k b, body_of (object_of k b) = b;
    object_of_parts : ∀ o, object_of (key_of o) (body_of o) = o }.

Section Store.
Context {Obj : Type} `{Resource Obj}.

Inductive call : Type :=
  | CallGet (k : key)
  | CallCreate (obj : Obj)
  | CallPatch (updated existing : Obj)
  | CallUpdate (obj : Obj)
  | CallList (namespace : option string) (selector : labels)
  | CallDelete (obj : Obj).

Record cluster : Type :=
  { live : gmap key Body;
    faults : list (option error);
    calls : list (call * option error) }.

(** [client.MatchingLabels]: every selector label is carried. *)
Definition matching (selector : labels) (b : Body) : bool :=
  bool_decide (selector ⊆ default ∅ (labels_of b)).

(** [client.InNamespace]; [None] lists every namespace. *)
Definition in_namespace (namespace : option string) (k : key) : bool :=
  match namespace with
  | Some ns => bool_decide (k.1 = ns)
  | None => true
  end.

Definition injected (c : cluster) : option error :=
  match faults c with
  | f :: _ => f
  | [] => None
  end.

(** The state after a call answered by [err] that left [objs]. *)
Definition answered (cl : call) (err : option error) (objs : gmap key Body)
           (c : cluster) : cluster :=
  {| live := objs; faults := tail (faults c); calls := calls c ++ [(cl, err)] |}.

Definition Get (k : key) (c : cluster) : cluster * (error + Obj) :=
  match injected c with
  | Some e => (answered (CallGet k) (Some e) (live c) c, inl e)
  | None =>
      match live c !! k with
      | Some b => (answered (CallGet k) None (live c) c, inr (object_of k b))
      | None => (answered (CallGet k) (Some StatusNotFound) (live c) c, inl StatusNotFound)
      end
  end.

Definition Create (obj : Obj) (c : cluster) : cluster * option error :=
  match injected c with
  | Some e => (answered (CallCreate obj) (Some e) (live c) c, Some e)
  | None =>
      match live c !! key_of obj with
      | Some _ =>
          (answered (CallCreate obj) (Some StatusAlreadyExists) (live c) c,
           Some StatusAlreadyExists)
      | None =>
          (answered (CallCreate obj) None (<[key_of obj := body_of obj]> (live c)) c, None)
      end
  end.

(** [Patch(updated, client.MergeFrom(existing))].  The pass that issues
    it has just read [existing], so applying the difference yields
    [updated]. *)
Definition Patch (updated existing : Obj) (c : cluster) : cluster * option error :=
  match injected c with
  | Some e => (answered (CallPatch updated existing) (Some e) (live c) c, Some e)
  | None =>
      match live c !! key_of updated with
      | Some _ =>
          (answered (CallPatch updated existing) None
                    (<[key_of updated := body_of updated]> (live c)) c, None)
      | None =>
          (answered (CallPatch updated existing) (Some StatusNotFound) (live c) c,
           Some StatusNotFound)
      end
  end.

Definition Update (obj : Obj) (c : cluster) : cluster * option error :=
  match injected c with
  | Some e => (answered (CallUpdate obj) (Some e) (live c) c, Some e)
  | None =>
      match live c !! key_of obj with
      | Some _ =>
          (answered (CallUpdate obj) None (<[key_of obj := body_of obj]> (live c)) c, None)
      | None =>
          (answered (CallUpdate obj) (Some StatusNotFound) (live c) c, Some StatusNotFound)
      end
  end.

Definition selected (namespace : option string) (selector : labels)
           (objs : gmap key Body) : list Obj :=
  (λ kb, object_of kb.1 kb.2)
    <$> filter (λ kb, in_namespace namespace kb.1 && matching selector kb.2)
               (map_to_list objs).

Definition List (namespace : option string) (selector : labels) (c : cluster)
  : cluster * (error + list Obj) :=
  match injected c with
  | Some e => (answered (CallList namespace selector) (Some e) (live c) c, inl e)
  | None =>
      (answered (CallList namespace selector) None (live c) c,
       inr (selected namespace selector (live c)))
  end.

Definition Delete (obj : Obj) (c : cluster) : cluster * option error :=
  match injected c with
  | Some e => (answered (CallDelete obj) (Some e) (live c) c, Some e)
  | None =>
      match live c !! key_of obj with
      | Some _ => (answered (CallDelete obj) None (delete (key_of obj) (live c)) c, None)
      | None =>
          (answered (CallDelete obj) (Some StatusNotFound) (live c) c, Some StatusNotFound)
      end
  end.

End Store.

Arguments call : clear implicits.
Arguments cluster Obj {_}.

End Client.

(** ** The ServiceAccount reconciler *)

Module Reconcile.
Import Client.

(** [metav1.OwnerReference], the fields that tell owners apart. *)
Record OwnerReference : Type :=
  { ownerKind : string; ownerName : string; isController : bool }.

(** [corev1.ServiceAccount]: identity, the metadata the reconciler
    writes, and [Secrets] standing for what the cluster fills in. *)
Record ServiceAccount : Type :=
  { Name : string;
    Namespace : string;
    Labels : option labels;
    Annotations : option labels;
    OwnerReferences : list OwnerReference;
    Secrets : list string }.

#[global] Instance OwnerReference_eq_dec : EqDecision OwnerReference.
Proof. solve_decision. Defined.

#[global] Instance ServiceAccount_eq_dec : EqDecision ServiceAccount.
Proof. solve_decision. Defined.

#[global] Program Instance ServiceAccount_resource : Resource ServiceAccount :=
  {| Body := option labels * option labels * list OwnerReference * list string;
     key_of := λ o, (Namespace o, Name o);
     body_of := λ o, (Labels o, Annotations o, OwnerReferences o, Secrets o);
     object_of := λ k b,
       {| Name := k.2; Namespace := k.1; Labels := b.1.1.1; Annotations := b.1.1.2;
          OwnerReferences := b.1.2; Secrets := b.2 |};
     labels_of := λ b, b.1.1.1 |}.
Next Obligation. by intros [??] ?. Qed.
Next Obligation. by intros ? [[[??]?]?]. Qed.
Next Obligation. by intros []. Qed.

(** What the reconciler is handed.  [collector.ServiceAccount] (the
    manifest builder) and [controllerutil.SetControllerReference] are
    declared outside the sources at hand and are taken as they come. *)
Class Builders : Type :=
  { collector_ServiceAccount : V1alpha1.AmazonCloudWatchAgent → ServiceAccount;
    SetControllerReference :
      V1alpha1.AmazonCloudWatchAgent → ServiceAccount → error + ServiceAccount }.

Record Params : Type := { Instance : V1alpha1.AmazonCloudWatchAgent }.

Abbreviation cluster := (Client.cluster ServiceAccount).

Section Reconciler.
Context `{Builders}.

Definition desiredServiceAccounts (params : Params) : list ServiceAccount :=
  if negb (bool_decide (V1alpha1.Mode (V1alpha1.Spec (Instance params)) = V1alpha1.ModeSidecar))
     && (String.length (V1alpha1.ServiceAccount (V1alpha1.Spec (Instance params))) =? 0)%nat
  then [] ++ [collector_ServiceAccount (Instance params)]
  else [].

(** The merge of lines 91 to 105: a copy of [existing] whose maps are
    made non-nil, whose owner references are those of [desired], and
    into whose maps the entries of [desired] are written. *)
Definition merged (existing desired : ServiceAccount) : ServiceAccount :=
  {| Name := Name existing;
     Namespace := Namespace existing;
     Labels := Some (default ∅ (Labels desired) ∪ default ∅ (Labels existing));
     Annotations := Some (default ∅ (Annotations desired) ∪ default ∅ (Annotations existing));
     OwnerReferences := OwnerReferences desired;
     Secrets := Secrets existing |}.

Fixpoint expectedServiceAccounts (params : Params) (expected : list ServiceAccount)
         (c : cluster) : cluster * option error :=
  match expected with
  | [] => (c, None)
  | obj :: rest =>
      match SetControllerReference (Instance params) obj with
      | inl err => (c, Some (Errorf "failed to set controller reference" err))
      | inr desired =>
          match Get (Namespace desired, Name desired) c with
          | (c1, inl err) =>
              if IsNotFound err
              then match Create desired c1 with
                   | (c2, Some clientErr) => (c2, Some (Errorf "failed to create" clientErr))
                   | (c2, None) => expectedServiceAccounts params rest c2
                   end
              else (c1, Some (Errorf "failed to get" err))
          | (c1, inr existing) =>
              let updated := merged existing desired in
              match Patch updated existing c1 with
              | (c2, Some err) => (c2, Some (Errorf "failed to apply changes" err))
              | (c2, None) => expectedServiceAccounts params rest c2
              end
          end
      end
  end.

(** The inner loop of [deleteServiceAccounts]: is [existing] kept? *)
Definition kept (expected : list ServiceAccount) (existing : ServiceAccount) : bool :=
  existsb (λ keep, bool_decide (Name keep = Name existing)
                   && bool_decide (Namespace keep = Namespace existing)) expected.

Fixpoint delete_items (expected items : list ServiceAccount) (c : cluster)
  : cluster * option error :=
  match items with
  | [] => (c, None)
  | existing :: rest =>
      if kept expected existing then delete_items expected rest c
      else match Delete existing c with
           | (c1, Some err) => (c1, Some (Errorf "failed to delete" err))
           | (c1, None) => delete_items expected rest c1
           end
  end.

Definition ownership (inst : V1alpha1.AmazonCloudWatchAgent) : labels :=
  {[ "app.kubernetes.io/instance" :=
       V1alpha1.Namespace inst +:+ "." +:+ V1alpha1.Name inst;
     "app.kubernetes.io/managed-by" := "amazon-cloudwatch-agent-operator" ]}.

Definition deleteServiceAccounts (params : Params) (expected : list ServiceAccount)
           (c : cluster) : cluster * option error :=
  match List (Some (V1alpha1.Namespace (Instance params))) (ownership (Instance params)) c with
  | (c1, inl err) => (c1, Some (Errorf "failed to list" err))
  | (c1, inr items) => delete_items expected items c1
  end.

Definition ServiceAccounts (params : Params) (c : cluster) : cluster * option error :=
  let desired := desiredServiceAccounts params in
  match expectedServiceAccounts params desired c with
  | (c1, Some err) =>
      (c1, Some (Errorf "failed to reconcile the expected service accounts" err))
  | (c1, None) =>
      match deleteServiceAccounts params desired c1 with
      | (c2, Some err) =>
          (c2, Some (Errorf "failed to reconcile the service accounts to be deleted" err))
      | (c2, None) => (c2, None)
      end
  end.

End Reconciler.

(** The identities of a desired set. *)
Definition identities (expected : list ServiceAccount) : list key :=
  (λ o, (Namespace o, Name o)) <$> expected.

(** The listed objects the inner loop does not keep. *)
Definition orphans (expected items : list ServiceAccount) : list ServiceAccount :=
  filter (λ o, kept expected o = false) items.

Abbreviation entry := (call ServiceAccount * option error)%type.

(** A logged call that does not abort a pass: one that succeeded, or a
    [Get] answered "not found". *)
Definition tolerated (e : entry) : bool :=
  match e with
  | (_, None) => true
  | (CallGet _, Some err) => IsNotFound err
  | (_, Some _) => false
  end.

(** [e] is [err] or wraps it ([errors.Is]). *)
Fixpoint wraps (e err : error) : Prop :=
  e = err ∨ match e with
            | Errorf _ inner => wraps inner err
            | _ => False
            end.

(** The shape of the log of a pass, with the result of the pass: calls
    that succeed; a [Get] answered "not found" followed by the creation of
    that object; and at the very end, possibly, a call that failed, whose
    error the pass returns.  A pass may also fail without a failing call
    (the owner reference could not be set). *)
Inductive pass_trace : list entry → option error → Prop :=
  | pass_done (r : option error) : pass_trace [] r
  | pass_call (cl : call ServiceAccount) (log : list entry) (r : option error) :
      pass_trace log r → pass_trace ((cl, None) :: log) r
  | pass_create (k : key) (err : error) (desired : ServiceAccount) (res : option error)
                (log : list entry) (r : option error) :
      IsNotFound err = true → (Namespace desired, Name desired) = k →
      pass_trace ((CallCreate desired, res) :: log) r →
      pass_trace ((CallGet k, Some err) :: (CallCreate desired, res) :: log) r
  | pass_abort (cl : call ServiceAccount) (err e : error) :
      tolerated (cl, Some err) = false → wraps e err →
      pass_trace [(cl, Some err)] (Some e).

(** The identities a log asks the store to delete. *)
Definition deleted_keys (log : list entry) : list key :=
  omap (λ e : entry, match e with
                     | (CallDelete o, _) => Some (Namespace o, Name o)
                     | _ => None
                     end) log.

(** The patches a log asks the store to apply: merged object, base. *)
Definition patches (log : list entry) : list (ServiceAccount * ServiceAccount) :=
  omap (λ e : entry, match e with
                     | (CallPatch updated existing, _) => Some (updated, existing)
                     | _ => None
                     end) log.

(** *** A sample instance

    A collector [monitoring/agent]; builders that name its service account
    [agent-collector], label it as owned, and set the collector as its
    controller; three owned service accounts [a], [b], [c]. *)
Definition sample_instance : V1alpha1.AmazonCloudWatchAgent :=
  {| V1alpha1.Name := "agent"; V1alpha1.Namespace := "monitoring";
     V1alpha1.Spec := {| V1alpha1.Mode := "deployment";
                         V1alpha1.ServiceAccount := EmptyString;
                         V1alpha1.Config := EmptyString |} |}.

Definition sample_params : Params := {| Instance := sample_instance |}.

Definition owner_of (inst : V1alpha1.AmazonCloudWatchAgent) : OwnerReference :=
  {| ownerKind := "AmazonCloudWatchAgent"; ownerName := V1alpha1.Name inst;
     isController := true |}.

#[global] Instance sample_builders : Builders :=
  {| collector_ServiceAccount := λ inst,
       {| Name := V1alpha1.Name inst +:+ "-collector";
          Namespace := V1alpha1.Namespace inst;
          Labels := Some (ownership inst);
          Annotations := None;
          OwnerReferences := [];
          Secrets := [] |};
     SetControllerReference := λ inst o,
       inr {| Name := Name o; Namespace := Namespace o; Labels := Labels o;
              Annotations := Annotations o;
              OwnerReferences := [owner_of inst];
              Secrets := Secrets o |} |}.

Definition owned (name : string) : ServiceAccount :=
  {| Name := name; Namespace := "monitoring";
     Labels := Some (ownership sample_instance);
     Annotations := Some ∅;
     OwnerReferences := [owner_of sample_instance];
     Secrets := ["token"] |}.

Definition cluster_of (objs : list ServiceAccount) (schedule : list (option error)) : cluster :=
  {| live := list_to_map ((λ o, ((Namespace o, Name o), body_of o)) <$> objs);
     faults := schedule;
     calls := [] |}.

End Reconcile.

(** ** The instrumentation batch upgrader *)

Module Instrumentation.
Import Client.

(** [featuregate.Gate], as the upgrader sees it. *)
Record Gate : Type := { ID : string; IsEnabled : bool }.

(** [v1alpha1.Instrumentation]: identity, metadata and the Java image. *)
Record Instrumentation : Type :=
  { Name : string;
    Namespace : string;
    Labels : option labels;
    Annotations : option labels;
    Java_Image : string }.

#[global] Instance Instrumentation_eq_dec : EqDecision Instrumentation.
Proof. solve_decision. Defined.

#[global] Program Instance Instrumentation_resource : Resource Instrumentation :=
  {| Body := option labels * option labels * string;
     key_of := λ o, (Namespace o, Name o);
     body_of := λ o, (Labels o, Annotations o, Java_Image o);
     object_of := λ k b,
       {| Name := k.2; Namespace := k.1; Labels := b.1.1; Annotations := b.1.2;
          Java_Image := b.2 |};
     labels_of := λ b, b.1.1 |}.
Next Obligation. by intros [??] ?. Qed.
Next Obligation. by intros ? [[??]?]. Qed.
Next Obligation. by intros []. Qed.

(** The annotation names of [pkg/constants] and the gates of
    [pkg/featuregate], both declared outside the sources at hand. *)
Class Constants : Type :=
  { AnnotationDefaultAutoInstrumentationJava : string;
    AnnotationDefaultAutoInstrumentationNodeJS : string;
    AnnotationDefaultAutoInstrumentationPython : string;
    AnnotationDefaultAutoInstrumentationDotNet : string;
    AnnotationDefaultAutoInstrumentationGo : string;
    AnnotationDefaultAutoInstrumentationApacheHttpd : string;
    AnnotationDefaultAutoInstrumentationNginx : string;
    EnableJavaAutoInstrumentationSupport : Gate;
    EnableNodeJSAutoInstrumentationSupport : Gate;
    EnablePythonAutoInstrumentationSupport : Gate;
    EnableDotnetAutoInstrumentationSupport : Gate;
    EnableGoAutoInstrumentationSupport : Gate;
    EnableApacheHTTPAutoInstrumentationSupport : Gate;
    EnableNginxAutoInstrumentationSupport : Gate }.

Record InstrumentationUpgrade : Type := { DefaultAutoInstJava : string }.

(** The two dynamic types that meet in [ManagedInstances]: a pointer to an
    instrumentation and an instrumentation. *)
Inductive any : Type :=
  | Pointer (target : Instrumentation)
  | Struct (v : Instrumentation).

(** [reflect.DeepEqual]: values of distinct types are never deeply equal;
    pointers are when what they point to is. *)
Definition DeepEqual (x y : any) : bool :=
  match x, y with
  | Pointer a, Pointer b => bool_decide (a = b)
  | Struct a, Struct b => bool_decide (a = b)
  | _, _ => false
  end.

Abbreviation cluster := (Client.cluster Instrumentation).

Section Upgrader.
Context `{Constants}.

Definition defaultAnnotationToGate : list (string * Gate) :=
  [ (AnnotationDefaultAutoInstrumentationJava, EnableJavaAutoInstrumentationSupport);
    (AnnotationDefaultAutoInstrumentationNodeJS, EnableNodeJSAutoInstrumentationSupport);
    (AnnotationDefaultAutoInstrumentationPython, EnablePythonAutoInstrumentationSupport);
    (AnnotationDefaultAutoInstrumentationDotNet, EnableDotnetAutoInstrumentationSupport);
    (AnnotationDefaultAutoInstrumentationGo, EnableGoAutoInstrumentationSupport);
    (AnnotationDefaultAutoInstrumentationApacheHttpd, EnableApacheHTTPAutoInstrumentationSupport);
    (AnnotationDefaultAutoInstrumentationNginx, EnableNginxAutoInstrumentationSupport) ].

Definition rejected_event (gate : Gate) : Upgrade.Event :=
  {| Upgrade.eventtype := "Warning"; Upgrade.reason := "InstrumentationUpgradeRejected";
     Upgrade.message := "support for is not enabled for " +:+ ID gate |}.

(** One turn of the loop of [upgrade], on the copy being built. *)
Definition upgrade_annotation (u : InstrumentationUpgrade) (inst : Instrumentation)
           (acc : Instrumentation * list Upgrade.Event) (entry : string * Gate)
  : Instrumentation * list Upgrade.Event :=
  let upgraded := acc.1 in
  let autoInst := default EmptyString (default ∅ (Annotations upgraded) !! entry.1) in
  if bool_decide (autoInst = EmptyString) then acc
  else if IsEnabled entry.2
  then if bool_decide (entry.1 = AnnotationDefaultAutoInstrumentationJava)
       then if bool_decide (Java_Image inst = autoInst)
            then ({| Name := Name upgraded; Namespace := Namespace upgraded;
                     Labels := Labels upgraded;
                     Annotations := Some (<[entry.1 := DefaultAutoInstJava u]>
                                            (default ∅ (Annotations upgraded)));
                     Java_Image := DefaultAutoInstJava u |}, acc.2)
            else acc
       else acc
  else (upgraded, acc.2 ++ [rejected_event entry.2]).

(** [upgrade]: works on [inst.DeepCopy()] and returns a pointer to it. *)
Definition upgrade (u : InstrumentationUpgrade) (inst : Instrumentation)
  : Instrumentation * list Upgrade.Event :=
  fold_left (upgrade_annotation u inst) defaultAnnotationToGate (inst, []).

Fixpoint upgrade_items (u : InstrumentationUpgrade) (items : list Instrumentation)
         (c : cluster) : cluster * list Upgrade.Event :=
  match items with
  | [] => (c, [])
  | toUpgrade :: rest =>
      let (upgraded, evs) := upgrade u toUpgrade in
      let c1 :=
        if negb (DeepEqual (Pointer upgraded) (Struct toUpgrade))
        then (Update upgraded c).1
        else c in
      let (c2, evs') := upgrade_items u rest c1 in
      (c2, evs ++ evs')
  end.

Definition managed : labels :=
  {[ "app.kubernetes.io/managed-by" := "amazon-cloudwatch-agent-operator" ]}.

Definition ManagedInstances (u : InstrumentationUpgrade) (c : cluster)
  : cluster * list Upgrade.Event * option error :=
  match List None managed c with
  | (c1, inl err) => (c1, [], Some (Errorf "failed to list" err))
  | (c1, inr items) => (upgrade_items u items c1, None)
  end.

End Upgrader.

(** *** A sample setting

    Annotation names and gates as the operator ships them, every gate
    enabled; an instance that carries the managed-by label and no default
    image annotation, so that the upgrade has nothing to change. *)
#[global] Instance sample_constants : Constants :=
  {| AnnotationDefaultAutoInstrumentationJava :=
       "instrumentation.opentelemetry.io/default-auto-instrumentation-java-image";
     AnnotationDefaultAutoInstrumentationNodeJS :=
       "instrumentation.opentelemetry.io/default-auto-instrumentation-nodejs-image";
     AnnotationDefaultAutoInstrumentationPython :=
       "instrumentation.opentelemetry.io/default-auto-instrumentation-python-image";
     AnnotationDefaultAutoInstrumentationDotNet :=
       "instrumentation.opentelemetry.io/default-auto-instrumentation-dotnet-image";
     AnnotationDefaultAutoInstrumentationGo :=
       "instrumentation.opentelemetry.io/default-auto-instrumentation-go-image";
     AnnotationDefaultAutoInstrumentationApacheHttpd :=
       "instrumentation.opentelemetry.io/default-auto-instrumentation-apache-httpd-image";
     AnnotationDefaultAutoInstrumentationNginx :=
       "instrumentation.opentelemetry.io/default-auto-instrumentation-nginx-image";
     EnableJavaAutoInstrumentationSupport :=
       {| ID := "operator.autoinstrumentation.java"; IsEnabled := true |};
     EnableNodeJSAutoInstrumentationSupport :=
       {| ID := "operator.autoinstrumentation.nodejs"; IsEnabled := true |};
     EnablePythonAutoInstrumentationSupport :=
       {| ID := "operator.autoinstrumentation.python"; IsEnabled := true |};
     EnableDotnetAutoInstrumentationSupport :=
       {| ID := "operator.autoinstrumentation.dotnet"; IsEnabled := true |};
     EnableGoAutoInstrumentationSupport :=
       {| ID := "operator.autoinstrumentation.go"; IsEnabled := true |};
     EnableApacheHTTPAutoInstrumentationSupport :=
       {| ID := "operator.autoinstrumentation.apache-httpd"; IsEnabled := true |};
     EnableNginxAutoInstrumentationSupport :=
       {| ID := "operator.autoinstrumentation.nginx"; IsEnabled := true |} |}.

Definition sample_upgrader : InstrumentationUpgrade :=
  {| DefaultAutoInstJava := "java-autoinstrumentation:2" |}.

Definition settled : Instrumentation :=
  {| Name := "java-instrumentation"; Namespace := "default";
     Labels := Some managed;
     Annotations := Some ∅;
     Java_Image := "custom/java:1" |}.

(** The same instance, defaulted to an older image of the operator. *)
Definition outdated : Instrumentation :=
  {| Name := "java-instrumentation"; Namespace := "default";
     Labels := Some managed;
     Annotations :=
       Some {[ "instrumentation.opentelemetry.io/default-auto-instrumentation-java-image"
               := "java-autoinstrumentation:1" ]};
     Java_Image := "java-autoinstrumentation:1" |}.

Definition cluster_of (objs : list Instrumentation) : cluster :=
  {| live := list_to_map ((λ o, ((Namespace o, Name o), body_of o)) <$> objs);
     faults := [];
     calls := [] |}.

(** The objects a log asks the store to write. *)
Definition updates (log : list (call Instrumentation * option error)) : list Instrumentation :=
  omap (λ entry, match entry with
                 | (CallUpdate o, _) => Some o
                 | _ => None
                 end) log.

End Instrumentation.

(** ** What the v0.31.0 step computes *)

(** The two loops of [upgrade0_31_0] written as one pass over the receivers:
    the fields that stay, the receivers as they are afterwards, and the
    receiver names for which a field is dropped.  [scan_receivers] is the
    code; these say what it amounts to when it runs through. *)
Module Scrub.
Import Yaml Upgrade.

Definition keep_field (kv : scalar * value) : bool :=
  match kv.1 with
  | SStr fieldKey => negb (HasPrefix fieldKey "metrics_schema")
  | _ => true
  end.

Definition scrub_entry (kv : scalar * value) : scalar * value :=
  match kv with
  | (SStr k, VMap fields) =>
      if HasPrefix k "influxdb" then (SStr k, VMap (List.filter keep_field fields)) else kv
  | _ => kv
  end.

Definition scrubbed (receivers : document) : document := scrub_entry <$> receivers.

Section Events.
Context `{Codec}.

Definition dropped_of (kv : scalar * value) : list Event :=
  match kv with
  | (SStr k, VMap fields) =>
      if HasPrefix k "influxdb"
      then (λ _, dropped_event k) <$> List.filter (λ f, negb (keep_field f)) fields
      else []
  | _ => []
  end.

Definition dropped (receivers : document) : list Event := receivers ≫= dropped_of.

End Events.

(** Every [influxdb...] receiver is a map. *)
Definition influxdb_maps (receivers : document) : Prop :=
  ∀ k v, (SStr k, v) ∈ receivers → HasPrefix k "influxdb" = true → ∃ fields, v = VMap fields.

(** Samples: the document of [text_deprecated]; a configuration in which
    one [influxdb] receiver carries the deprecated field and another one is
    not a map. *)
Definition receivers_deprecated : document :=
  [(SStr "influxdb/in",
    VMap [(SStr "endpoint", VScalar (SStr "0.0.0.0:8080"));
          (SStr "metrics_schema", VScalar (SStr "telegraf-prometheus-v1"))])].

Definition doc_deprecated : document := [(SStr "receivers", VMap receivers_deprecated)].

Definition text_scrubbed : string :=
"receivers:
  influxdb/in:
    endpoint: 0.0.0.0:8080
".

Definition text_mixed : string :=
"receivers:
  influxdb/a:
    metrics_schema: telegraf-prometheus-v1
  influxdb/b:
".

Definition receivers_mixed : document :=
  [(SStr "influxdb/a",
    VMap [(SStr "metrics_schema", VScalar (SStr "telegraf-prometheus-v1"))]);
   (SStr "influxdb/b", VScalar SNull)].

Definition doc_mixed : document := [(SStr "receivers", VMap receivers_mixed)].

End Scrub.

(** ** What the create-and-update phase may ask of the store *)

Module Phase.
Import Client Reconcile.

(** The calls [expectedServiceAccounts] issues: get, create, patch. *)
Definition reads_or_writes (e : entry) : bool :=
  match e.1 with
  | CallGet _ | CallCreate _ | CallPatch _ _ => true
  | _ => false
  end.

(** The part of a stored service account the cluster fills in. *)
Definition secrets_of (b : @Body ServiceAccount ServiceAccount_resource) : list string :=
  b.2.

(** What holds of the phase run on [expected] from [c], ending in [out]:
    it only gets, creates and patches; an object that was live is still
    live, with the secrets it had; an identity that no desired object has
    is left alone; and when the phase ends without error every desired
    object is live. *)
Definition phase_spec `{Builders} (params : Params) (expected : list ServiceAccount)
           (c : cluster) (out : cluster * option error) : Prop :=
  ∃ log,
    calls out.1 = calls c ++ log
    ∧ forallb reads_or_writes log = true
    ∧ (∀ k b, live c !! k = Some b →
              ∃ b', live out.1 !! k = Some b' ∧ secrets_of b' = secrets_of b)
    ∧ (∀ k, (∀ obj desired, obj ∈ expected →
                            SetControllerReference (Instance params) obj = inr desired →
                            (Namespace desired, Name desired) ≠ k) →
            live out.1 !! k = live c !! k)
    ∧ (out.2 = None →
       ∀ obj, obj ∈ expected →
              ∃ desired, SetControllerReference (Instance params) obj = inr desired
                         ∧ is_Some (live out.1 !! (Namespace desired, Name desired))).

(** An instance in sidecar mode, and one that names its own account. *)
Definition sidecar_instance : V1alpha1.AmazonCloudWatchAgent :=
  {| V1alpha1.Name := "agent"; V1alpha1.Namespace := "monitoring";
     V1alpha1.Spec := {| V1alpha1.Mode := "sidecar";
                         V1alpha1.ServiceAccount := EmptyString;
                         V1alpha1.Config := EmptyString |} |}.

End Phase.

(** ** apis/v1alpha1: the instrumentation webhook, defaulting and sampler *)

Module Admission.
Import Instrumentation.

(** [config.Config], the field the webhook reads, with its getter. *)
Record Config : Type := { autoInstrumentationJavaImage : string }.

Definition AutoInstrumentationJavaImage (c : Config) : string :=
  autoInstrumentationJavaImage c.

(** [v1alpha1.Instrumentation] as the webhook sees it: what the upgrader
    sees ([core]), the Java resource lists, the sampler and the two lists
    of environment variables.  A resource list maps a resource name to the
    text of its quantity. *)
Record Instrumentation : Type :=
  { core : Instrumentation.Instrumentation;
    Java_Limits : option (gmap string string);
    Java_Requests : option (gmap string string);
    Sampler_Type : string;
    Sampler_Argument : string;
    Env : list Webhook.EnvVar;
    Java_Env : list Webhook.EnvVar }.

(** [strconv], as far as the webhook uses it: whether a text parses, and
    for a parsed rate whether it is below zero or above one.  The sampler
    names are those of the API package.  Both are declared outside the
    sources at hand. *)
Class Strconv : Type :=
  { float : Type;
    ParseFloat : string → option float;
    below_zero : float → bool;
    above_one : float → bool;
    Atoi : string → option Z }.

Class SamplerNames : Type :=
  { AlwaysOn : string;
    AlwaysOff : string;
    TraceIDRatio : string;
    ParentBasedAlwaysOn : string;
    ParentBasedAlwaysOff : string;
    ParentBasedTraceIDRatio : string;
    JaegerRemote : string;
    ParentBasedJaegerRemote : string;
    XRaySampler : string }.

(** [strings.Split s sep] for a separator of one character. *)
Definition Split (s : string) (sep : ascii) : list string :=
  string_of_list_ascii <$> Yaml.split_on sep (list_ascii_of_string s).

(** The number of occurrences of a character. *)
Definition occurrences (c : ascii) (s : string) : nat :=
  length (List.filter (λ x, bool_decide (x = c)) (list_ascii_of_string s)).

Section Webhook.
Context `{Constants} `{Strconv} `{SamplerNames}.

Definition defaulter (cfg : Config) (r : Instrumentation) : Instrumentation * option error :=
  let labels0 := default ∅ (Labels (core r)) in
  let labels1 :=
    if bool_decide (default EmptyString (labels0 !! "app.kubernetes.io/managed-by") = EmptyString)
    then <["app.kubernetes.io/managed-by" := "amazon-cloudwatch-agent-operator"]> labels0
    else labels0 in
  let image :=
    if bool_decide (Java_Image (core r) = EmptyString)
    then AutoInstrumentationJavaImage cfg else Java_Image (core r) in
  let limits :=
    match Java_Limits r with
    | None => Some {[ "cpu" := "500m"; "memory" := "64Mi" ]}
    | Some l => Some l
    end in
  let requests :=
    match Java_Requests r with
    | None => Some {[ "cpu" := "50m"; "memory" := "64Mi" ]}
    | Some l => Some l
    end in
  let annotations :=
    <[AnnotationDefaultAutoInstrumentationJava := AutoInstrumentationJavaImage cfg]>
      (default ∅ (Annotations (core r))) in
  ({| core := {| Name := Name (core r); Namespace := Namespace (core r);
                 Labels := Some labels1; Annotations := Some annotations;
                 Java_Image := image |};
      Java_Limits := limits; Java_Requests := requests;
      Sampler_Type := Sampler_Type r; Sampler_Argument := Sampler_Argument r;
      Env := Env r; Java_Env := Java_Env r |}, None).

(** The [switch kv[0]] of [validateJaegerRemoteSamplerArgument]. *)
Definition check_pair (k v : string) : option error :=
  if bool_decide (k = "endpoint")
  then if bool_decide (v = EmptyString) then Some (ErrorMsg "endpoint cannot be empty") else None
  else if bool_decide (k = "pollingIntervalMs")
  then match Atoi v with
       | None => Some (ErrorMsg ("invalid pollingIntervalMs: " +:+ v))
       | Some _ => None
       end
  else if bool_decide (k = "initialSamplingRate")
  then match ParseFloat v with
       | None => Some (ErrorMsg ("invalid initialSamplingRate: " +:+ v))
       | Some rate =>
           if below_zero rate || above_one rate
           then Some (ErrorMsg ("initialSamplingRate should be in rage [0..1]: " +:+ v))
           else None
       end
  else None.

Fixpoint check_parts (parts : list string) : option error :=
  match parts with
  | [] => None
  | part :: rest =>
      match Split part "="%char with
      | [k; v] =>
          match check_pair k v with
          | Some err => Some err
          | None => check_parts rest
          end
      | _ => Some (ErrorMsg ("invalid argument: " +:+ part
                               +:+ ", the argument should be in the form of key=value"))
      end
  end.

Definition validateJaegerRemoteSamplerArgument (argument : string) : option error :=
  check_parts (Split argument ","%char).

(** The checks of the environment at the end of [validate]. *)
Definition validate_env (warnings : list string) (r : Instrumentation)
  : list string * option error :=
  match Webhook.validateEnv (Env r) with
  | Some err => (warnings, Some err)
  | None =>
      match Webhook.validateEnv (Java_Env r) with
      | Some err => (warnings, Some err)
      | None => (warnings, None)
      end
  end.

Definition validate (r : Instrumentation) : list string * option error :=
  let t := Sampler_Type r in
  let argument := Sampler_Argument r in
  if bool_decide (t = EmptyString) then validate_env ["sampler type not set"] r
  else if bool_decide (t = TraceIDRatio) || bool_decide (t = ParentBasedTraceIDRatio)
  then if bool_decide (argument = EmptyString) then validate_env [] r
       else match ParseFloat argument with
            | None => ([], Some (ErrorMsg ("spec.sampler.argument is not a number: " +:+ argument)))
            | Some rate =>
                if below_zero rate || above_one rate
                then ([], Some (ErrorMsg ("spec.sampler.argument should be in rage [0..1]: "
                                            +:+ argument)))
                else validate_env [] r
            end
  else if bool_decide (t = JaegerRemote) || bool_decide (t = ParentBasedJaegerRemote)
  then if bool_decide (argument = EmptyString) then validate_env [] r
       else match validateJaegerRemoteSamplerArgument argument with
            | Some err =>
                ([], Some (Errorf ("spec.sampler.argument is not a valid argument for sampler "
                                     +:+ t) err))
            | None => validate_env [] r
            end
  else if bool_decide (t = AlwaysOn) || bool_decide (t = AlwaysOff)
          || bool_decide (t = ParentBasedAlwaysOn) || bool_decide (t = ParentBasedAlwaysOff)
          || bool_decide (t = XRaySampler)
  then validate_env [] r
  else ([], Some (ErrorMsg ("spec.sampler.type is not valid: " +:+ t))).

(** The sampler names [validate] knows. *)
Definition known_samplers : list string :=
  [TraceIDRatio; ParentBasedTraceIDRatio; JaegerRemote; ParentBasedJaegerRemote;
   AlwaysOn; AlwaysOff; ParentBasedAlwaysOn; ParentBasedAlwaysOff; XRaySampler].

End Webhook.

(** *** A sample setting: the sampler names of the API, and a [strconv]
    that reads decimal integers only. *)
#[global] Instance sample_samplers : SamplerNames :=
  {| AlwaysOn := "always_on"; AlwaysOff := "always_off"; TraceIDRatio := "traceidratio";
     ParentBasedAlwaysOn := "parentbased_always_on";
     ParentBasedAlwaysOff := "parentbased_always_off";
     ParentBasedTraceIDRatio := "parentbased_traceidratio";
     JaegerRemote := "jaeger_remote"; ParentBasedJaegerRemote := "parentbased_jaeger_remote";
     XRaySampler := "xray" |}.

Definition read_integer (s : string) : option Z :=
  match Yaml.resolve (list_ascii_of_string s) with
  | Yaml.SInt z => Some z
  | _ => None
  end.

#[global] Instance sample_strconv : Strconv :=
  {| float := Z; ParseFloat := read_integer;
     below_zero := λ z, (z <? 0)%Z; above_one := λ z, (1 <? z)%Z;
     Atoi := read_integer |}.

Definition sample_config : Config := {| autoInstrumentationJavaImage := "java-autoinstrumentation:1" |}.

Definition bare (image : string) : Instrumentation :=
  {| core := {| Name := "java-instrumentation"; Namespace := "default";
                Labels := None; Annotations := None; Java_Image := image |};
     Java_Limits := None; Java_Requests := None;
     Sampler_Type := "jaeger_remote";
     Sampler_Argument := "endpoint=http://localhost:14250,pollingIntervalMs=5000";
     Env := [ {| Webhook.Name := "OTEL_LOG_LEVEL"; Webhook.Value := "debug" |} ];
     Java_Env := [ {| Webhook.Name := "SPLUNK_PROFILER"; Webhook.Value := "on" |} ] |}.

(** An instance without sampler and without environment. *)
Definition unsampled : Instrumentation :=
  {| core := core (bare EmptyString);
     Java_Limits := None; Java_Requests := None;
     Sampler_Type := EmptyString; Sampler_Argument := EmptyString;
     Env := []; Java_Env := [] |}.

End Admission.

(** ** What the instrumentation upgrade amounts to *)

Module Bump.
Import Instrumentation.

Section WithConstants.
Context `{Constants}.

(** The image the Java annotation of an instance records. *)
Definition recorded_image (inst : Instrumentation) : string :=
  default EmptyString
          (default ∅ (Annotations inst) !! AnnotationDefaultAutoInstrumentationJava).

(** The instance moved to the default image of the upgrader. *)
Definition bumped (u : InstrumentationUpgrade) (inst : Instrumentation) : Instrumentation :=
  {| Name := Name inst; Namespace := Namespace inst; Labels := Labels inst;
     Annotations := Some (<[AnnotationDefaultAutoInstrumentationJava := DefaultAutoInstJava u]>
                            (default ∅ (Annotations inst)));
     Java_Image := DefaultAutoInstJava u |}.

(** The instance runs the image its annotation records. *)
Definition follows_default (inst : Instrumentation) : bool :=
  negb (bool_decide (recorded_image inst = EmptyString))
  && bool_decide (Java_Image inst = recorded_image inst).

(** Some entry of the table is keyed by the Java annotation and has its
    gate enabled. *)
Definition java_gate_open (entries : list (string * Gate)) : bool :=
  existsb (λ e, bool_decide (e.1 = AnnotationDefaultAutoInstrumentationJava) && IsEnabled e.2)
          entries.

End WithConstants.

End Bump.

(** * Properties *)

(** ** Environment validation *)

Section WebhookFacts.
Import Webhook.

Lemma accepted_dec (env : EnvVar) :
  negb (HasPrefix (Name env) envPrefix) && negb (HasPrefix (Name env) envSplunkPrefix) = false
  ↔ accepted env.
Proof.
  unfold accepted.
  destruct (HasPrefix (Name env) envPrefix), (HasPrefix (Name env) envSplunkPrefix);
    simpl; intuition congruence.
Qed.

Lemma validateEnv_cons (env : EnvVar) (rest : list EnvVar) :
  validateEnv (env :: rest)
  = if negb (HasPrefix (Name env) envPrefix) && negb (HasPrefix (Name env) envSplunkPrefix)
    then Some (ErrorMsg ("env name should start with " +:+ dquote +:+ "OTEL_"
                           +:+ dquote +:+ " or " +:+ dquote +:+ "SPLUNK_" +:+ dquote
                           +:+ ": " +:+ Name env))
    else validateEnv rest.
Proof. reflexivity. Qed.

Lemma validateEnv_None (envs : list EnvVar) :
  validateEnv envs = None ↔ Forall accepted envs.
Proof.
  induction envs as [|env rest IH]; [by split; [constructor|]|].
  rewrite validateEnv_cons, Forall_cons, <- IH, <- accepted_dec.
  destruct (negb _ && negb _); intuition congruence.
Qed.

(** C10: validation of a list of environment variables fails if and only
    if some variable of the list has a name that starts with neither
    [OTEL_] nor [SPLUNK_]; it succeeds on every list whose names all carry
    one of the two prefixes, the empty list included, and the error it
    returns names the first offending variable. *)
Theorem validateEnv_fails_iff (envs : list EnvVar) :
  (is_Some (validateEnv envs) ↔ Exists (λ env, ¬ accepted env) envs)
  ∧ (validateEnv envs = None ↔ Forall accepted envs)
  ∧ validateEnv [] = None.
Proof.
  split; [|split; [apply validateEnv_None | reflexivity]].
  induction envs as [|env rest IH].
  - split; [by intros [? ?] | by intros ?%Exists_nil].
  - rewrite validateEnv_cons, Exists_cons, <- IH.
    pose proof (accepted_dec env) as Hd.
    destruct (negb _ && negb _); [|tauto].
    split; [|by eauto].
    intros _. left. intros Ha. apply Hd in Ha. discriminate.
Qed.

(** The two lists [validate] checks pass together exactly when every name
    in both is accepted; the general list is checked first. *)
Lemma validate_envs_None (specEnv javaEnv : list EnvVar) :
  validate_envs specEnv javaEnv = None ↔ Forall accepted (specEnv ++ javaEnv).
Proof.
  unfold validate_envs. rewrite Forall_app, <- !validateEnv_None.
  destruct (validateEnv specEnv), (validateEnv javaEnv); intuition congruence.
Qed.

End WebhookFacts.

(** ** Reading the embedded configuration *)

Section AdaptersFacts.
Import Yaml Adapters.

Lemma drop_spaces_blank (l : list ascii) :
  forallb is_space l = true → drop_spaces l = [].
Proof.
  induction l as [|c l IH]; [done|]. simpl.
  intros [Hc Hl]%andb_prop. rewrite Hc. auto.
Qed.

Lemma strip_comment_blank (b : bool) (l : list ascii) :
  forallb is_space l = true → strip_comment b l = l.
Proof.
  revert b. induction l as [|c l IH]; [done|].
  intros b [Hc Hl]%andb_prop.
  destruct (decide (c = "#"%char)) as [->|Hne]; [discriminate|].
  assert (strip_comment b (c :: l) = c :: strip_comment (is_space c) l) as ->.
  { simpl. destruct c as [[] [] [] [] [] [] [] []]; try reflexivity. by destruct Hne. }
  by rewrite IH.
Qed.

Lemma forallb_rev {A} (f : A → bool) (l : list A) :
  forallb f (rev l) = forallb f l.
Proof.
  induction l as [|x l IH]; [done|]. simpl.
  rewrite forallb_app, IH. simpl. rewrite andb_true_r. apply andb_comm.
Qed.

Lemma read_line_blank (raw : list ascii) :
  forallb is_space raw = true → read_line raw = Some None.
Proof.
  intros Hraw. unfold read_line.
  rewrite strip_comment_blank by done.
  rewrite (drop_spaces_blank (rev raw)) by (by rewrite forallb_rev).
  reflexivity.
Qed.

Lemma split_on_blank (l : list ascii) :
  forallb (λ c, is_space c || bool_decide (c = "010"%char)) l = true →
  Forall (λ raw, forallb is_space raw = true) (split_on "010"%char l)
  ∧ split_on "010"%char l ≠ [].
Proof.
  induction l as [|c l IH]; simpl.
  - intros _. split; [by repeat constructor | done].
  - intros [Hc Hl]%andb_prop. destruct (IH Hl) as [IH1 IH2].
    destruct (decide (c = "010"%char)) as [->|Hne].
    + split; [by constructor | done].
    + rewrite bool_decide_eq_false_2, orb_false_r in Hc by done.
      destruct (split_on "010"%char l) as [|cur more]; [done|].
      apply Forall_cons in IH1 as [Hcur Hmore].
      split; [|done]. constructor; [|done]. simpl. by rewrite Hc.
Qed.

Lemma read_lines_blank (raws : list (list ascii)) :
  Forall (λ raw, forallb is_space raw = true) raws → read_lines raws = Some [].
Proof.
  induction 1 as [|raw raws Hraw _ IH]; [done|].
  simpl. by rewrite read_line_blank, IH.
Qed.

Lemma Unmarshal_blank (text : string) :
  blank text = true → Unmarshal text = Some [].
Proof.
  intros Hb. unfold Unmarshal.
  destruct (split_on_blank _ Hb) as [Hall _].
  by rewrite read_lines_blank.
Qed.

(** C7: reading a blank text (the empty text included) yields the empty
    document and no error; reading a text the decoder rejects yields
    [ErrInvalidYAML] and no document; and any text yields either a document
    without error or [ErrInvalidYAML] without document, never both and
    never neither.  The text of the repository's test is rejected. *)
Theorem ConfigFromString_outcomes :
  (∀ text, blank text = true → ConfigFromString text = (Some [], None))
  ∧ (∀ text, Unmarshal text = None → ConfigFromString text = (None, Some ErrInvalidYAML))
  ∧ (∀ text, (∃ doc, ConfigFromString text = (Some doc, None))
             ∨ ConfigFromString text = (None, Some ErrInvalidYAML))
  ∧ ConfigFromString EmptyString = (Some [], None)
  ∧ ConfigFromString "🦄" = (None, Some ErrInvalidYAML).
Proof.
  unfold ConfigFromString. repeat split.
  - intros text Hb. by rewrite Unmarshal_blank.
  - by intros text ->.
  - intros text. destruct (Unmarshal text); eauto.
Qed.

End AdaptersFacts.

(** ** The collector upgrade steps *)

Section UpgradeFacts.
Import Yaml V1alpha1 Upgrade.

Lemma set_key_lookup (k : scalar) (v : value) (m : document) :
  lookup_key k m = Some v → set_key k v m = m.
Proof.
  induction m as [|[k' v'] m IH]; [done|]. simpl.
  destruct (decide (k' = k)) as [->|Hne]; [by intros [= ->]|].
  intros Hl. by rewrite IH.
Qed.

(** The quoting of the event text, run on a plain receiver name and on
    one that holds a backslash, a tab and a double quote. *)
Lemma dropped_event_sample :
  message (dropped_event "influxdb/in")
  = "upgrade to v0.31.0 dropped the 'metrics_schema' field from "
      +:+ dquote +:+ "influxdb/in" +:+ dquote +:+ " receiver"
  ∧ strconv_Quote ("influxdb" +:+ String backslash "x"
                     +:+ String (ascii_of_nat 9) dquote)
    = dquote +:+ "influxdb" +:+ String backslash (String backslash "x")
        +:+ String backslash "t" +:+ String backslash dquote +:+ dquote.
Proof. split; vm_compute; reflexivity. Qed.

(** The inner loop on a map without a targeted field: nothing is dropped
    and nothing recorded; it runs through unless it meets a key that is not
    a string. *)
Lemma drop_metrics_schema_untargeted `{Codec} (k : string) (fields : document) :
  ¬ targets_field fields →
  drop_metrics_schema k fields = Through fields []
  ∨ drop_metrics_schema k fields = Crashed [].
Proof.
  induction fields as [|[fk fv] rest IH]; intros Hnot; [by left|].
  destruct fk as [| |z|fieldKey]; try by right.
  simpl.
  destruct (HasPrefix fieldKey "metrics_schema") eqn:Hp.
  { destruct Hnot. exists fieldKey, fv. split; [apply list_elem_of_here | done]. }
  destruct IH as [-> | ->]; [|by left|by right].
  intros (fk' & fv' & Hin & Hp'). apply Hnot.
  exists fk', fv'. split; [by apply list_elem_of_further | done].
Qed.

Lemma drop_metrics_schema_string_keys `{Codec} (k : string) (fields : document) :
  string_keys fields → ∃ kept evs, drop_metrics_schema k fields = Through kept evs.
Proof.
  induction fields as [|[fk fv] rest IH]; intros Hk; [by eexists _, _|].
  destruct (Hk fk fv) as [s ->]; [apply list_elem_of_here|].
  destruct IH as (kept & evs & IH).
  { intros k' v' Hin. apply (Hk k' v'). by apply list_elem_of_further. }
  simpl. rewrite IH. destruct (HasPrefix s "metrics_schema"); by eexists _, _.
Qed.

(** The outer loop on receivers none of which is targeted. *)
Lemma scan_receivers_untargeted `{Codec} (receivers : document) :
  ¬ targets_receiver receivers →
  scan_receivers receivers = Through receivers []
  ∨ scan_receivers receivers = Left_early []
  ∨ scan_receivers receivers = Crashed [].
Proof.
  induction receivers as [|[rk rv] rest IH]; intros Hnot; [by left|].
  destruct rk as [| |z|k]; try by (right; right).
  assert (¬ targets_receiver rest) as Hrest.
  { intros (k' & fields & Hin & Hp & Ht). apply Hnot.
    exists k', fields. split; [by apply list_elem_of_further | done]. }
  specialize (IH Hrest). simpl.
  destruct (HasPrefix k "influxdb") eqn:Hp.
  - destruct rv as [s|items|fields]; try by (right; left).
    destruct (drop_metrics_schema_untargeted k fields) as [-> | ->].
    + intros Ht. apply Hnot. exists k, fields.
      split; [apply list_elem_of_here | done].
    + destruct IH as [-> | [-> | ->]]; [by left | by right; left | by right; right].
    + by right; right.
  - destruct IH as [-> | [-> | ->]]; [by left | by right; left | by right; right].
Qed.

Lemma scan_receivers_string_keys `{Codec} (receivers : document) :
  receivers_string_keyed receivers →
  (∃ out evs, scan_receivers receivers = Through out evs)
  ∨ (∃ evs, scan_receivers receivers = Left_early evs).
Proof.
  induction receivers as [|[rk rv] rest IH]; intros [Hk Hf]; [by left; eexists _, _|].
  destruct (Hk rk rv) as [k ->]; [apply list_elem_of_here|].
  assert (receivers_string_keyed rest) as Hrest.
  { split.
    - intros k' v' Hin. apply (Hk k' v'). by apply list_elem_of_further.
    - intros k' fields Hin. apply Hf. by apply list_elem_of_further. }
  specialize (IH Hrest). simpl.
  destruct (HasPrefix k "influxdb") eqn:Hp.
  - destruct rv as [s|items|fields]; try by (right; eexists).
    destruct (drop_metrics_schema_string_keys k fields) as (kept & evs & ->).
    { apply (Hf k); [apply list_elem_of_here | done]. }
    destruct IH as [(out & evs' & ->) | (evs' & ->)];
      [left; by eexists _, _ | right; by eexists].
  - destruct IH as [(out & evs' & ->) | (evs' & ->)];
      [left; by eexists _, _ | right; by eexists].
Qed.

Lemma record_no_events (st : state) : record_events [] st = st.
Proof. destruct st as [objs evs]. unfold record_events. simpl. by rewrite app_nil_r. Qed.

(** C6: with nothing to change the step succeeds as a no-op: on an empty
    embedded configuration, and on a configuration whose receivers section
    is absent or is not a map, it returns the object it was given, no error,
    and the state as it was.  When the configuration does not parse, it
    returns the parse error, wrapped, and again the state as it was, so the
    returned object still carries the original text. *)
Theorem upgrade0_31_0_noop_or_parse_error `{Codec} (st : state) (otelcol : positive)
        (obj : AmazonCloudWatchAgent) :
  objects st !! otelcol = Some obj →
  (Config (Spec obj) = EmptyString →
   upgrade0_31_0 otelcol st = Returned st otelcol None)
  ∧ (∀ parsed,
       ConfigFromString (Config (Spec obj)) = (parsed, None) →
       (∀ receivers, lookup_key (SStr "receivers") (default [] parsed) ≠ Some (VMap receivers)) →
       upgrade0_31_0 otelcol st = Returned st otelcol None)
  ∧ (∀ parsed err,
       Config (Spec obj) ≠ EmptyString →
       ConfigFromString (Config (Spec obj)) = (parsed, Some err) →
       upgrade0_31_0 otelcol st
       = Returned st otelcol
           (Some (Errorf "couldn't upgrade to v0.31.0, failed to parse configuration" err))
       ∧ text_behind st otelcol = Some (Config (Spec obj))).
Proof.
  intros Hobj. unfold upgrade0_31_0, text_behind. rewrite Hobj. split; [|split].
  - by intros ->.
  - intros parsed Hparse Hrecv. rewrite Hparse.
    destruct (String.length _ =? 0)%nat; [done|].
    destruct (lookup_key _ _) as [[| |receivers]|] eqn:Hl; try done.
    by destruct (Hrecv receivers).
  - intros parsed err Hne Hparse. rewrite Hparse. split; [|done].
    by destruct (Config (Spec obj)).
Qed.

Lemma upgrade0_31_0_noop_or_parse_error_witness :
  upgrade0_31_0 1 (single "🦄")
  = Returned (single "🦄") 1
      (Some (Errorf "couldn't upgrade to v0.31.0, failed to parse configuration" ErrInvalidYAML))
  ∧ upgrade0_31_0 1 (single EmptyString) = Returned (single EmptyString) 1 None
  ∧ upgrade0_31_0 1 (single text_scalar_receivers)
    = Returned (single text_scalar_receivers) 1 None.
Proof.
  split; [|split].
  - refine (proj1 (proj2 (proj2 (upgrade0_31_0_noop_or_parse_error (single "🦄") 1 _ eq_refl))
                      None ErrInvalidYAML _ eq_refl)).
    discriminate.
  - exact (proj1 (upgrade0_31_0_noop_or_parse_error (single EmptyString) 1 _ eq_refl) eq_refl).
  - refine (proj1 (proj2 (upgrade0_31_0_noop_or_parse_error
                            (single text_scalar_receivers) 1 _ eq_refl)) _ eq_refl _).
    intros receivers. discriminate.
Defined.

Lemma with_Config_same (obj : AmazonCloudWatchAgent) :
  with_Config (Config (Spec obj)) obj = obj.
Proof. by destruct obj as [? ? []]. Qed.

(** On receivers whose keys are strings the step does not crash. *)
Lemma upgrade0_31_0_returns `{Codec} (st : state) (otelcol : positive)
      (obj : AmazonCloudWatchAgent) :
  objects st !! otelcol = Some obj →
  (∀ parsed receivers,
     ConfigFromString (Config (Spec obj)) = (parsed, None) →
     lookup_key (SStr "receivers") (default [] parsed) = Some (VMap receivers) →
     receivers_string_keyed receivers) →
  ∃ st' err, upgrade0_31_0 otelcol st = Returned st' otelcol err.
Proof.
  intros Hobj Hkeys. unfold upgrade0_31_0. rewrite Hobj.
  destruct (String.length _ =? 0)%nat; [by eexists _, _|].
  destruct (ConfigFromString _) as [parsed [err|]] eqn:Hparse; [by eexists _, _|].
  destruct (lookup_key _ _) as [[| |receivers]|] eqn:Hl; try by eexists _, _.
  destruct (scan_receivers_string_keys receivers) as [(out & evs & ->) | (evs & ->)];
    [by eapply Hkeys | | by eexists _, _].
  destruct (Marshal _) as [res [err|]]; by eexists _, _.
Qed.

(** C3, as amended: on a specification that is already upgraded (its
    configuration parses, and its receivers, keyed by strings, hold no
    [influxdb...] entry with a [metrics_schema...] field) the step records no
    event and leaves the document as it is: it returns the state untouched,
    or it replaces the text by the serialization of the very document the
    text was parsed to, or it reports that this serialization failed and
    leaves the state untouched. *)
Theorem upgrade0_31_0_upgraded_document `{Codec} (st : state) (otelcol : positive)
        (obj : AmazonCloudWatchAgent) (doc : document) :
  objects st !! otelcol = Some obj →
  ConfigFromString (Config (Spec obj)) = (Some doc, None) →
  (∀ receivers, lookup_key (SStr "receivers") doc = Some (VMap receivers) →
                receivers_string_keyed receivers ∧ ¬ targets_receiver receivers) →
  upgrade0_31_0 otelcol st = Returned st otelcol None
  ∨ (∃ text, Marshal doc = (text, None)
             ∧ upgrade0_31_0 otelcol st = Returned (store_Config otelcol text st) otelcol None)
  ∨ (∃ text err, Marshal doc = (text, Some err)
                 ∧ upgrade0_31_0 otelcol st
                   = Returned st otelcol
                       (Some (Errorf "couldn't upgrade to v0.31.0, failed to marshall back configuration" err))).
Proof.
  intros Hobj Hparse Hrecv. unfold upgrade0_31_0. rewrite Hobj, Hparse.
  destruct (String.length _ =? 0)%nat; [by left|]. simpl.
  destruct (lookup_key _ _) as [[| |receivers]|] eqn:Hl; try by left.
  destruct (Hrecv receivers eq_refl) as [Hkeys Hnot].
  destruct (scan_receivers_untargeted receivers Hnot) as [Hs | [Hs | Hs]]; rewrite Hs.
  - rewrite record_no_events, (set_key_lookup _ _ _ Hl).
    destruct (Marshal doc) as [text [err|]]; right; [right | left]; eauto.
  - rewrite record_no_events. by left.
  - destruct (scan_receivers_string_keys receivers Hkeys) as [(? & ? & Hc) | (? & Hc)];
      rewrite Hc in Hs; discriminate.
Qed.

Lemma untargeted_otlp : ¬ targets_receiver [(SStr "otlp", VMap [])].
Proof.
  intros (k & fields & Hin & _ & (fk & fv & Hf & _)).
  apply list_elem_of_singleton in Hin. injection Hin as -> ->.
  by apply elem_of_nil in Hf.
Qed.

Lemma string_keyed_otlp : receivers_string_keyed [(SStr "otlp", VMap [])].
Proof.
  split.
  - intros k v [= -> ->]%list_elem_of_singleton. by eexists.
  - intros k fields [= -> ->]%list_elem_of_singleton. discriminate.
Qed.

Lemma upgrade0_31_0_upgraded_document_witness :
  upgrade0_31_0 1 (single text_upgraded)
  = Returned (store_Config 1 (Yaml.Marshal doc_upgraded) (single text_upgraded)) 1 None.
Proof.
  destruct (upgrade0_31_0_upgraded_document (H := yaml_codec) (single text_upgraded) 1 _
              doc_upgraded eq_refl eq_refl)
    as [Hu | [(text & Hm & Hu) | (text & err & Hm & _)]].
  - intros receivers [= <-]. split; [apply string_keyed_otlp | apply untargeted_otlp].
  - discriminate Hu.
  - injection Hm as <-. exact Hu.
  - discriminate Hm.
Defined.

(** C3, as stated, fails: the sample below has no [influxdb] receiver at
    all, and the step replaces its text by another one. *)
Lemma upgrade0_31_0_rewrites_text :
  ∃ doc receivers st',
    ConfigFromString text_upgraded = (Some doc, None)
    ∧ lookup_key (SStr "receivers") doc = Some (VMap receivers)
    ∧ ¬ targets_receiver receivers
    ∧ upgrade0_31_0 1 (single text_upgraded) = Returned st' 1 None
    ∧ text_behind (single text_upgraded) 1 = Some text_upgraded
    ∧ text_behind st' 1 = Some "exporters:
  logging: {}
receivers:
  otlp: {}
"
    ∧ text_behind st' 1 ≠ text_behind (single text_upgraded) 1.
Proof.
  eexists _, _, _. split; [reflexivity|]. split; [reflexivity|].
  split; [apply untargeted_otlp|]. split; [reflexivity|].
  split; [reflexivity|]. split; [reflexivity | discriminate].
Qed.

(** C4 is contradicted on a document whose receivers map has an integer
    key: the text parses, and the step crashes at [k.(string)]. *)
Lemma upgrade0_31_0_integer_key_panics :
  ConfigFromString text_integer_key
  = (Some [(SStr "receivers", VMap [(SInt 1, VMap [])])], None)
  ∧ upgrade0_31_0 1 (single text_integer_key) = Panicked (single text_integer_key).
Proof. split; reflexivity. Qed.

(** C5, as amended: a collector step hands back the pointer it received.
    v0.2.10 changes nothing.  v0.31.0 writes in place: of all the objects of
    the caller it touches only the one behind that pointer, of that object
    only the embedded text, and when it returns an error it has written
    nothing. *)
Theorem upgrade_steps_write_in_place `{Codec} (st st' : state) (otelcol res : positive)
        (err : option error) :
  upgrade0_31_0 otelcol st = Returned st' res err →
  res = otelcol
  ∧ upgrade0_2_10 otelcol st = Returned st otelcol None
  ∧ (∀ p, p ≠ otelcol → objects st' !! p = objects st !! p)
  ∧ (∃ text, objects st' !! otelcol = with_Config text <$> objects st !! otelcol)
  ∧ (is_Some err → objects st' = objects st).
Proof.
  unfold upgrade0_31_0. intros Hrun.
  destruct (objects st !! otelcol) as [obj|] eqn:Hobj; [|discriminate].
  assert (∀ (st2 : state) (e : option error),
             objects st2 = objects st →
             otelcol = otelcol
             ∧ upgrade0_2_10 otelcol st = Returned st otelcol None
             ∧ (∀ p, p ≠ otelcol → objects st2 !! p = objects st !! p)
             ∧ (∃ text, objects st2 !! otelcol = with_Config text <$> Some obj)
             ∧ (is_Some e → objects st2 = objects st)) as Hsame.
  { intros st2 e ->. repeat split; try done.
    exists (Config (Spec obj)). simpl. by rewrite Hobj, with_Config_same. }
  destruct (String.length _ =? 0)%nat.
  { injection Hrun as <- <- <-. by apply Hsame. }
  destruct (ConfigFromString _) as [parsed [perr|]].
  { injection Hrun as <- <- <-. by apply Hsame. }
  destruct (lookup_key _ _) as [[| |receivers]|];
    try (injection Hrun as <- <- <-; by apply Hsame).
  destruct (scan_receivers receivers) as [out evs|evs|evs]; [| |discriminate].
  - destruct (Marshal _) as [text [merr|]]; injection Hrun as <- <- <-.
    + by apply Hsame.
    + split; [done|]. split; [done|]. split; [|split].
      * intros p Hp. simpl. by rewrite lookup_alter_ne.
      * exists text. simpl. by rewrite lookup_alter_eq, Hobj.
      * by intros [? ?].
  - injection Hrun as <- <- <-. by apply Hsame.
Qed.

Lemma upgrade_steps_write_in_place_witness :
  ∃ text, objects (store_Config 1 (Yaml.Marshal doc_upgraded) (single text_upgraded)) !! 1%positive
          = with_Config text <$> objects (single text_upgraded) !! 1%positive.
Proof.
  exact (proj1 (proj2 (proj2 (proj2
           (upgrade_steps_write_in_place (H := yaml_codec) (single text_upgraded) _ 1 1 None
              eq_refl))))).
Defined.

(** C5, as stated, fails: the caller's object still carries the deprecated
    field before the step and no longer after it, and the step returns the
    caller's own pointer rather than a new value. *)
Lemma upgrade0_31_0_mutates_caller_object :
  ∃ st', upgrade0_31_0 1 (single text_deprecated) = Returned st' 1 None
         ∧ text_behind (single text_deprecated) 1 = Some text_deprecated
         ∧ text_behind st' 1 = Some "receivers:
  influxdb/in:
    endpoint: 0.0.0.0:8080
"
         ∧ objects st' !! 1%positive ≠ objects (single text_deprecated) !! 1%positive.
Proof.
  eexists. split; [reflexivity|]. split; [reflexivity|]. split; [reflexivity|].
  discriminate.
Qed.

End UpgradeFacts.

(** ** The cluster client: what a call logs and what it leaves *)

Section ClientFacts.
Import Client.
Context {Obj : Type} `{Resource Obj}.

Lemma Get_spec (k : key) (c : cluster Obj) :
  calls (Get k c).1
  = calls c ++ [(CallGet k, match (Get k c).2 with inl e => Some e | inr _ => None end)]
  ∧ live (Get k c).1 = live c
  ∧ ∀ o, (Get k c).2 = inr o → key_of o = k ∧ live c !! k = Some (body_of o).
Proof.
  unfold Get. destruct (injected c); [by repeat split|].
  destruct (live c !! k) as [b|] eqn:Hb; simpl; (split; [done|split; [done|]]); [|done].
  intros o [= <-]. by rewrite key_of_object, body_of_object.
Qed.

Lemma Create_spec (o : Obj) (c : cluster Obj) :
  calls (Create o c).1 = calls c ++ [(CallCreate o, (Create o c).2)]
  ∧ live (Create o c).1
    = match (Create o c).2 with
      | None => <[key_of o := body_of o]> (live c)
      | Some _ => live c
      end.
Proof.
  unfold Create. destruct (injected c); [done|].
  by destruct (live c !! key_of o).
Qed.

Lemma Patch_spec (updated existing : Obj) (c : cluster Obj) :
  calls (Patch updated existing c).1
  = calls c ++ [(CallPatch updated existing, (Patch updated existing c).2)]
  ∧ live (Patch updated existing c).1
    = match (Patch updated existing c).2 with
      | None => <[key_of updated := body_of updated]> (live c)
      | Some _ => live c
      end.
Proof.
  unfold Patch. destruct (injected c); [done|].
  by destruct (live c !! key_of updated).
Qed.

Lemma Update_spec (o : Obj) (c : cluster Obj) :
  calls (Update o c).1 = calls c ++ [(CallUpdate o, (Update o c).2)].
Proof.
  unfold Update. destruct (injected c); [done|].
  by destruct (live c !! key_of o).
Qed.

Lemma Delete_spec (o : Obj) (c : cluster Obj) :
  calls (Delete o c).1 = calls c ++ [(CallDelete o, (Delete o c).2)]
  ∧ live (Delete o c).1
    = match (Delete o c).2 with
      | None => delete (key_of o) (live c)
      | Some _ => live c
      end.
Proof.
  unfold Delete. destruct (injected c); [done|].
  by destruct (live c !! key_of o).
Qed.

Lemma List_spec (namespace : option string) (selector : labels) (c : cluster Obj) :
  calls (List namespace selector c).1
  = calls c ++ [(CallList namespace selector,
                 match (List namespace selector c).2 with inl e => Some e | inr _ => None end)]
  ∧ live (List namespace selector c).1 = live c
  ∧ ∀ items, (List namespace selector c).2 = inr items →
             items = selected namespace selector (live c).
Proof.
  unfold List. destruct (injected c); [by repeat split|].
  simpl. split; [done|split; [done|]]. by intros items [= <-].
Qed.

(** What [List] selects: the live objects of the namespace that carry the
    selector's labels, each once. *)
Lemma elem_of_selected (namespace : option string) (selector : labels)
      (objs : gmap key Body) (o : Obj) :
  o ∈ selected namespace selector objs
  ↔ objs !! key_of o = Some (body_of o)
    ∧ in_namespace namespace (key_of o) = true
    ∧ selector ⊆ default ∅ (labels_of (body_of o)).
Proof.
  unfold selected. rewrite list_elem_of_fmap. split.
  - intros ([k b] & -> & [Hsel Hin]%list_elem_of_filter). simpl in *.
    rewrite key_of_object, body_of_object.
    apply elem_of_map_to_list in Hin.
    apply andb_prop_elim in Hsel as [Hns Hm].
    split; [done|]. split; [by apply Is_true_true|].
    unfold matching in Hm. by apply bool_decide_unpack in Hm.
  - intros (Hl & Hns & Hm). exists (key_of o, body_of o). simpl.
    split; [by rewrite object_of_parts|].
    apply list_elem_of_filter. split; [|by apply elem_of_map_to_list].
    simpl. apply andb_prop_intro. split; [by apply Is_true_true|].
    unfold matching. by apply bool_decide_pack.
Qed.

End ClientFacts.

(** ** The ServiceAccount reconciler: errors *)

Section ReconcileErrors.
Import Client Reconcile.

Lemma wraps_refl (e : error) : wraps e e.
Proof. destruct e; by left. Qed.

Lemma wraps_Errorf (msg : string) (e err : error) : wraps e err → wraps (Errorf msg e) err.
Proof. intros Hw. by right. Qed.

#[local] Hint Resolve wraps_refl wraps_Errorf : core.
#[local] Hint Constructors pass_trace : core.

Lemma pass_trace_wrap (msg : string) (log : list entry) (e : error) :
  pass_trace log (Some e) → pass_trace log (Some (Errorf msg e)).
Proof.
  intros Ht. remember (Some e) as r eqn:Hr. revert e Hr.
  induction Ht as [r|cl log r Ht IH|k err d res log r Hnf Hk Ht IH|cl err e' Hnt Hw];
    intros e Hr; subst; eauto.
  injection Hr as ->. eauto.
Qed.

Lemma pass_trace_app (log1 log2 : list entry) (r : option error) :
  pass_trace log1 None → pass_trace log2 r → pass_trace (log1 ++ log2) r.
Proof.
  intros H1 H2. remember None as r1 eqn:Hr1.
  induction H1 as [r1|cl log r1 Ht IH|k err d res log r1 Hnf Hk Ht IH|cl err e' Hnt Hw];
    subst; simpl; eauto; discriminate.
Qed.

(** A call that is not tolerated is the last of the log, and the pass
    returns its error, wrapped. *)
Lemma pass_trace_abort (log : list entry) (r : option error) :
  pass_trace log r →
  ∀ pre e post, log = pre ++ e :: post → tolerated e = false →
                post = [] ∧ ∃ err ret, e.2 = Some err ∧ r = Some ret ∧ wraps ret err.
Proof.
  induction 1 as [r|cl log r Ht IH|k err d res log r Hnf Hk Ht IH|cl err e' Hnt Hw];
    intros pre e post Hlog He.
  - by destruct pre.
  - destruct pre as [|x pre]; simplify_eq/=; [by destruct cl | eauto].
  - destruct pre as [|x pre]; simplify_eq/=; [congruence | eauto].
  - destruct pre as [|x pre]; simplify_eq/=; [eauto 10 | by destruct pre].
Qed.

(** A [Get] answered "not found" is followed by the creation of the object
    that was looked for. *)
Lemma pass_trace_create (log : list entry) (r : option error) :
  pass_trace log r →
  ∀ pre k err post, log = pre ++ (CallGet k, Some err) :: post → IsNotFound err = true →
                    ∃ desired res post', post = (CallCreate desired, res) :: post'
                                         ∧ (Namespace desired, Name desired) = k.
Proof.
  induction 1 as [r|cl log r Ht IH|k0 err0 d res log r Hnf Hk Ht IH|cl err0 e' Hnt Hw];
    intros pre k err post Hlog Herr.
  - by destruct pre.
  - destruct pre as [|x pre]; simplify_eq/=; eauto.
  - destruct pre as [|x pre]; simplify_eq/=; eauto.
  - destruct pre as [|x pre]; simplify_eq/=; [congruence | by destruct pre].
Qed.

Lemma pass_trace_success (log : list entry) :
  pass_trace log None → forallb tolerated log = true.
Proof.
  intros Ht. remember None as r eqn:Hr.
  induction Ht as [r|cl log r Ht IH|k err d res log r Hnf Hk Ht IH|cl err e' Hnt Hw].
  - done.
  - cbn [forallb]. rewrite (IH Hr). by destruct cl.
  - cbn [forallb] in *. cbn [tolerated]. rewrite Hnf. apply (IH Hr).
  - discriminate.
Qed.

Section WithBuilders.
Context `{Builders}.

Lemma expectedServiceAccounts_trace (params : Params) (expected : list ServiceAccount)
      (c : cluster) :
  ∃ log, calls (expectedServiceAccounts params expected c).1 = calls c ++ log
         ∧ pass_trace log (expectedServiceAccounts params expected c).2.
Proof.
  revert c. induction expected as [|obj rest IH]; intros c; simpl.
  { exists []. by rewrite app_nil_r. }
  destruct (SetControllerReference _ obj) as [err|desired].
  { exists []. by rewrite app_nil_r. }
  pose proof (Get_spec (Namespace desired, Name desired) c) as (Hg & _ & _).
  destruct (Get _ c) as [c1 [err|existing]]; simpl in Hg.
  - destruct (IsNotFound err) eqn:Hnf.
    + pose proof (Create_spec desired c1) as [Hc _].
      destruct (Create desired c1) as [c2 [cerr|]]; simpl in Hc.
      * eexists [_; _]. simpl. rewrite Hc, Hg, <- app_assoc. split; [done|].
        eapply pass_create; eauto.
      * destruct (IH c2) as (log & Hlog & Ht).
        eexists (_ :: _ :: log). rewrite Hlog, Hc, Hg, <- !app_assoc. split; [done|].
        eapply pass_create; eauto.
    + eexists [_]. simpl. rewrite Hg. split; [done|].
      apply pass_abort; [by simpl | eauto].
  - pose proof (Patch_spec (merged existing desired) existing c1) as [Hp _].
    destruct (Patch _ existing c1) as [c2 [perr|]]; simpl in Hp.
    + eexists [_; _]. simpl. rewrite Hp, Hg, <- app_assoc. split; [done|].
      apply pass_call. apply pass_abort; [done | eauto].
    + destruct (IH c2) as (log & Hlog & Ht).
      eexists (_ :: _ :: log). rewrite Hlog, Hp, Hg, <- !app_assoc. split; [done|].
      eauto.
Qed.

(** The create-and-update phase ends without error exactly when every
    call it issued was tolerated and every desired object could be given
    its controller reference; and it starts by fetching the first desired
    object. *)
Lemma expectedServiceAccounts_result (params : Params) (expected : list ServiceAccount)
      (c : cluster) :
  ∃ log, calls (expectedServiceAccounts params expected c).1 = calls c ++ log
         ∧ ((expectedServiceAccounts params expected c).2 = None
            ↔ forallb tolerated log = true
              ∧ ∀ obj, obj ∈ expected →
                       ∃ desired, SetControllerReference (Instance params) obj = inr desired)
         ∧ (∀ obj rest desired,
              expected = obj :: rest →
              SetControllerReference (Instance params) obj = inr desired →
              ∃ res log', log = (CallGet (Namespace desired, Name desired), res) :: log').
Proof.
  revert c. induction expected as [|obj rest IH]; intros c.
  { exists []. cbn. rewrite app_nil_r. split; [done|]. split; [|done].
    split; [|done]. intros _. split; [done|]. by intros obj ?%elem_of_nil. }
  cbn [expectedServiceAccounts].
  destruct (SetControllerReference _ obj) as [err|desired] eqn:Hset.
  { exists []. cbn. rewrite app_nil_r. split; [done|]. split.
    - split; [done|]. intros [_ Hall]. destruct (Hall obj) as [d Hd]; [by left|]. congruence.
    - intros ? ? ? [= <- <-]. congruence. }
  assert (∀ P : Prop,
            (P ∧ ∀ o, o ∈ rest → ∃ d, SetControllerReference (Instance params) o = inr d)
            ↔ (P ∧ ∀ o, o ∈ obj :: rest →
                        ∃ d, SetControllerReference (Instance params) o = inr d)) as Hcons.
  { intros P. split; intros [HP Hall]; (split; [done|]).
    - intros o [->|Ho]%elem_of_cons; eauto.
    - intros o Ho. apply Hall. by right. }
  pose proof (Get_spec (Namespace desired, Name desired) c) as (Hg & _ & _).
  destruct (Get _ c) as [c1 [err|existing]]; cbn [fst snd] in Hg.
  - destruct (IsNotFound err) eqn:Hnf.
    + pose proof (Create_spec desired c1) as [Hc _].
      destruct (Create desired c1) as [c2 [cerr|]]; cbn [fst snd] in Hc.
      * eexists [_; _]. cbn [fst snd]. rewrite Hc, Hg, <- app_assoc.
        split; [done|]. split.
        -- cbn. rewrite Hnf. split; [done|]. by intros [? _].
        -- intros ? ? ? [= <- <-] Hd. rewrite Hset in Hd. injection Hd as <-. eauto.
      * destruct (IH c2) as (log & Hlog & Hiff & _).
        eexists (_ :: _ :: log). rewrite Hlog, Hc, Hg, <- !app_assoc.
        split; [done|]. split.
        -- cbn [forallb tolerated]. rewrite Hnf. cbn [andb].
           rewrite Hiff. apply Hcons.
        -- intros ? ? ? [= <- <-] Hd. rewrite Hset in Hd. injection Hd as <-. eauto.
    + eexists [_]. cbn [fst snd]. rewrite Hg. split; [done|]. split.
      * cbn. rewrite Hnf. split; [done|]. by intros [? _].
      * intros ? ? ? [= <- <-] Hd. rewrite Hset in Hd. injection Hd as <-. eauto.
  - pose proof (Patch_spec (merged existing desired) existing c1) as [Hp _].
    destruct (Patch _ existing c1) as [c2 [perr|]]; cbn [fst snd] in Hp.
    + eexists [_; _]. cbn [fst snd]. rewrite Hp, Hg, <- app_assoc.
      split; [done|]. split.
      * cbn. split; [done|]. by intros [? _].
      * intros ? ? ? [= <- <-] Hd. rewrite Hset in Hd. injection Hd as <-. eauto.
    + destruct (IH c2) as (log & Hlog & Hiff & _).
      eexists (_ :: _ :: log). rewrite Hlog, Hp, Hg, <- !app_assoc.
      split; [done|]. split.
      * cbn [forallb tolerated andb]. rewrite Hiff. apply Hcons.
      * intros ? ? ? [= <- <-] Hd. rewrite Hset in Hd. injection Hd as <-. eauto.
Qed.

End WithBuilders.

Lemma delete_items_trace (expected items : list ServiceAccount) (c : cluster) :
  ∃ log, calls (delete_items expected items c).1 = calls c ++ log
         ∧ pass_trace log (delete_items expected items c).2.
Proof.
  revert c. induction items as [|existing rest IH]; intros c; simpl.
  { exists []. by rewrite app_nil_r. }
  destruct (kept expected existing); [apply IH|].
  pose proof (Delete_spec existing c) as [Hd _].
  destruct (Delete existing c) as [c1 [err|]]; simpl in Hd.
  - eexists [_]. simpl. rewrite Hd. split; [done|]. apply pass_abort; [done | eauto].
  - destruct (IH c1) as (log & Hlog & Ht).
    eexists (_ :: log). rewrite Hlog, Hd, <- app_assoc. split; [done | eauto].
Qed.

Lemma deleteServiceAccounts_trace (params : Params) (expected : list ServiceAccount)
      (c : cluster) :
  ∃ log, calls (deleteServiceAccounts params expected c).1 = calls c ++ log
         ∧ pass_trace log (deleteServiceAccounts params expected c).2.
Proof.
  unfold deleteServiceAccounts.
  pose proof (List_spec (Some (V1alpha1.Namespace (Instance params)))
                        (ownership (Instance params)) c) as (Hl & _ & _).
  destruct (List _ _ c) as [c1 [err|items]]; simpl in Hl.
  - eexists [_]. simpl. rewrite Hl. split; [done|]. apply pass_abort; [done | eauto].
  - destruct (delete_items_trace expected items c1) as (log & Hlog & Ht).
    eexists (_ :: log). rewrite Hlog, Hl, <- app_assoc. split; [done | eauto].
Qed.

Lemma ServiceAccounts_trace `{Builders} (params : Params) (c : cluster) :
  ∃ log, calls (ServiceAccounts params c).1 = calls c ++ log
         ∧ pass_trace log (ServiceAccounts params c).2.
Proof.
  unfold ServiceAccounts.
  destruct (expectedServiceAccounts_trace params (desiredServiceAccounts params) c)
    as (log1 & Hlog1 & Ht1).
  destruct (expectedServiceAccounts _ _ c) as [c1 [err|]]; simpl in *.
  { exists log1. split; [done|]. by apply pass_trace_wrap. }
  destruct (deleteServiceAccounts_trace params (desiredServiceAccounts params) c1)
    as (log2 & Hlog2 & Ht2).
  destruct (deleteServiceAccounts _ _ c1) as [c2 [err|]]; simpl in *.
  - exists (log1 ++ log2). rewrite Hlog2, Hlog1, app_assoc. split; [done|].
    apply pass_trace_app; [done|]. by apply pass_trace_wrap.
  - exists (log1 ++ log2). rewrite Hlog2, Hlog1, app_assoc. split; [done|].
    by apply pass_trace_app.
Qed.

(** The pass runs the deletions on the store the create-and-update phase
    left, and only when that phase ended without error. *)
Lemma ServiceAccounts_phases `{Builders} (params : Params) (c : cluster) :
  let desired := desiredServiceAccounts params in
  let first := expectedServiceAccounts params desired c in
  match first.2 with
  | Some err =>
      ServiceAccounts params c
      = (first.1, Some (Errorf "failed to reconcile the expected service accounts" err))
  | None =>
      (ServiceAccounts params c).1 = (deleteServiceAccounts params desired first.1).1
      ∧ ((ServiceAccounts params c).2 = None
         ↔ (deleteServiceAccounts params desired first.1).2 = None)
  end.
Proof.
  unfold ServiceAccounts. cbn zeta.
  destruct (expectedServiceAccounts _ _ c) as [c1 [err|]]; [done|]. cbn [fst snd].
  by destruct (deleteServiceAccounts _ _ c1) as [c2 [err|]].
Qed.

(** The deletion loop ends without error exactly when every call it
    issued was answered without error. *)
Lemma delete_items_result (expected items : list ServiceAccount) (c : cluster) :
  ∃ log, calls (delete_items expected items c).1 = calls c ++ log
         ∧ ((delete_items expected items c).2 = None ↔ ∀ e, e ∈ log → e.2 = None)
         ∧ ((delete_items expected items c).2 = None ↔ forallb tolerated log = true).
Proof.
  revert c. induction items as [|existing rest IH]; intros c; cbn [delete_items].
  { exists []. cbn. rewrite app_nil_r. split; [done|]. split; split; try done.
    by intros _ e ?%elem_of_nil. }
  destruct (kept expected existing); [apply IH|].
  pose proof (Delete_spec existing c) as [Hd _].
  destruct (Delete existing c) as [c1 [err|]]; cbn [fst snd] in Hd.
  - eexists [_]. cbn [fst snd]. rewrite Hd. split; [done|]. split; (split; [done|]).
    + intros Hall. by specialize (Hall _ (list_elem_of_here _ _)).
    + done.
  - destruct (IH c1) as (log & Hlog & Hiff1 & Hiff2).
    eexists (_ :: log). rewrite Hlog, Hd, <- app_assoc. split; [done|]. split.
    + rewrite Hiff1. split.
      * intros Hall e [->|He]%elem_of_cons; [done | by apply Hall].
      * intros Hall e He. apply Hall. by right.
    + by rewrite Hiff2.
Qed.

(** The deletion phase starts with the list call, and ends without error
    exactly when every call it issued was answered without error. *)
Lemma deleteServiceAccounts_result (params : Params) (expected : list ServiceAccount)
      (c : cluster) :
  ∃ log, calls (deleteServiceAccounts params expected c).1 = calls c ++ log
         ∧ ((deleteServiceAccounts params expected c).2 = None ↔ ∀ e, e ∈ log → e.2 = None)
         ∧ ((deleteServiceAccounts params expected c).2 = None ↔ forallb tolerated log = true)
         ∧ ∃ res log',
             log = (CallList (Some (V1alpha1.Namespace (Instance params)))
                             (ownership (Instance params)), res) :: log'.
Proof.
  unfold deleteServiceAccounts.
  pose proof (List_spec (Some (V1alpha1.Namespace (Instance params)))
                        (ownership (Instance params)) c) as (Hl & _ & _).
  destruct (List _ _ c) as [c1 [err|items]]; cbn [fst snd] in Hl.
  - eexists [_]. cbn [fst snd]. rewrite Hl. split; [done|].
    split; [|split; [done | eauto]]. split; [done|].
    intros Hall. by specialize (Hall _ (list_elem_of_here _ _)).
  - destruct (delete_items_result expected items c1) as (log & Hlog & Hiff1 & Hiff2).
    eexists (_ :: log). rewrite Hlog, Hl, <- app_assoc. split; [done|].
    split; [|split; [by rewrite Hiff2 | eauto]].
    rewrite Hiff1. split.
    + intros Hall e [->|He]%elem_of_cons; [done | by apply Hall].
    + intros Hall e He. apply Hall. by right.
Qed.

(** The pass as a whole. *)
Lemma ServiceAccounts_result `{Builders} (params : Params) (c : cluster) :
  ∃ log, calls (ServiceAccounts params c).1 = calls c ++ log
         ∧ ((ServiceAccounts params c).2 = None
            ↔ forallb tolerated log = true
              ∧ ∀ obj, obj ∈ desiredServiceAccounts params →
                       ∃ desired, SetControllerReference (Instance params) obj = inr desired)
         ∧ (∀ obj rest desired,
              desiredServiceAccounts params = obj :: rest →
              SetControllerReference (Instance params) obj = inr desired →
              ∃ res log', log = (CallGet (Namespace desired, Name desired), res) :: log')
         ∧ ((ServiceAccounts params c).2 = None →
            ∃ pre post,
              log = pre ++ (CallList (Some (V1alpha1.Namespace (Instance params)))
                                     (ownership (Instance params)), None) :: post).
Proof.
  unfold ServiceAccounts.
  destruct (expectedServiceAccounts_result params (desiredServiceAccounts params) c)
    as (log1 & Hlog1 & Hiff1 & Hfirst).
  destruct (expectedServiceAccounts _ _ c) as [c1 [err|]]; cbn [fst snd] in *.
  { exists log1. split; [done|]. split; [|split; [done|done]].
    rewrite <- Hiff1. done. }
  destruct (deleteServiceAccounts_result params (desiredServiceAccounts params) c1)
    as (log2 & Hlog2 & _ & Hiff2 & (res & log' & ->)).
  apply proj1 in Hiff1. destruct (Hiff1 eq_refl) as [Htol Hall].
  exists (log1 ++ (CallList (Some (V1alpha1.Namespace (Instance params)))
                            (ownership (Instance params)), res) :: log').
  assert (∀ r : option error,
            r = (deleteServiceAccounts params (desiredServiceAccounts params) c1).2 →
            (match r with
             | Some e => Some (Errorf "failed to reconcile the service accounts to be deleted" e)
             | None => None
             end = None ↔ r = None)) as Hwrap.
  { intros [e|] _; split; done. }
  destruct (deleteServiceAccounts _ _ c1) as [c2 r2]; cbn [fst snd] in *.
  assert ((c2, match r2 with
               | Some e => Some (Errorf "failed to reconcile the service accounts to be deleted" e)
               | None => None
               end)
          = match r2 with
            | Some e => (c2, Some (Errorf "failed to reconcile the service accounts to be deleted" e))
            | None => (c2, None)
            end) as Heq by by destruct r2.
  rewrite <- Heq. cbn [fst snd]. rewrite Hlog2, Hlog1, app_assoc. split; [done|].
  rewrite (Hwrap r2 eq_refl), forallb_app, Htol. cbn [andb].
  split; [|split].
  - rewrite Hiff2. tauto.
  - intros obj rest desired Hd Hs. destruct (Hfirst obj rest desired Hd Hs) as (r & l & ->).
    cbn. eauto.
  - intros Hr. apply Hiff2 in Hr. cbn [forallb] in Hr.
    apply andb_prop in Hr as [Hr _]. destruct res; [done|]. eauto.
Qed.

(** C8: in the log of a ServiceAccount pass, a [Get] answered "not found"
    is followed by the creation of the object that was looked for; any
    other call answered by an error, be it a get, create, patch, list or
    delete, is the last call of the pass, and the pass returns an error
    that wraps the error of that call.  The pass returns no error exactly
    when every call it issued succeeded or was a [Get] answered "not
    found", and the controller reference could be set on every desired
    object: so a "not found" followed by a successful creation never fails
    the pass.  The calls are really issued: the pass starts by fetching
    the first desired object whose controller reference can be set, and a
    pass that returns no error has gone on to the list call of the
    deletion phase. *)
Theorem ServiceAccounts_error_policy `{Builders} (params : Params) (c : cluster) :
  ∃ log,
    calls (ServiceAccounts params c).1 = calls c ++ log
    ∧ (∀ pre k err post,
         log = pre ++ (CallGet k, Some err) :: post → IsNotFound err = true →
         ∃ desired res post', post = (CallCreate desired, res) :: post'
                              ∧ (Namespace desired, Name desired) = k)
    ∧ (∀ pre e post,
         log = pre ++ e :: post → tolerated e = false →
         post = [] ∧ ∃ err ret, e.2 = Some err
                                ∧ (ServiceAccounts params c).2 = Some ret ∧ wraps ret err)
    ∧ ((ServiceAccounts params c).2 = None
       ↔ forallb tolerated log = true
         ∧ ∀ obj, obj ∈ desiredServiceAccounts params →
                  ∃ desired, SetControllerReference (Instance params) obj = inr desired)
    ∧ (∀ obj rest desired,
         desiredServiceAccounts params = obj :: rest →
         SetControllerReference (Instance params) obj = inr desired →
         ∃ res log', log = (CallGet (Namespace desired, Name desired), res) :: log')
    ∧ ((ServiceAccounts params c).2 = None →
       ∃ pre post,
         log = pre ++ (CallList (Some (V1alpha1.Namespace (Instance params)))
                                (ownership (Instance params)), None) :: post).
Proof.
  destruct (ServiceAccounts_trace params c) as (log & Hlog & Ht).
  destruct (ServiceAccounts_result params c) as (log' & Hlog' & Hiff & Hfirst & Hlist).
  rewrite Hlog in Hlog'. apply app_inv_head in Hlog' as <-.
  exists log. split; [done|]. split; [|split; [|split; [|split]]].
  - exact (pass_trace_create _ _ Ht).
  - exact (pass_trace_abort _ _ Ht).
  - exact Hiff.
  - exact Hfirst.
  - exact Hlist.
Qed.

(** A run on an empty store that answers normally: the account is looked
    for, not found, created, and the pass goes on to the list call and
    returns no error. *)
Lemma ServiceAccounts_creates_missing_account :
  let out := ServiceAccounts sample_params (cluster_of [] []) in
  out.2 = None
  ∧ fst <$> calls out.1
    = [CallGet ("monitoring", "agent-collector");
       CallCreate {| Name := "agent-collector"; Namespace := "monitoring";
                     Labels := Some (ownership sample_instance); Annotations := None;
                     OwnerReferences := [owner_of sample_instance]; Secrets := [] |};
       CallList (Some "monitoring") (ownership sample_instance)]
  ∧ snd <$> calls out.1 = [Some StatusNotFound; None; None].
Proof. split; [|split]; vm_compute; reflexivity. Qed.

End ReconcileErrors.

(** ** The ServiceAccount reconciler: garbage collection *)

Section ReconcileGarbage.
Import Client Reconcile.

Lemma kept_identities (expected : list ServiceAccount) (o : ServiceAccount) :
  kept expected o = true ↔ (Namespace o, Name o) ∈ identities expected.
Proof.
  unfold kept, identities. rewrite existsb_exists, list_elem_of_fmap.
  split.
  - intros (keep & Hin%list_elem_of_In & [Hn Hns]%andb_prop).
    apply bool_decide_eq_true in Hn, Hns. exists keep. by rewrite Hn, Hns.
  - intros (keep & [= Hns Hn] & Hin). exists keep.
    split; [by apply list_elem_of_In|].
    by rewrite Hn, Hns, !bool_decide_eq_true_2.
Qed.

Lemma orphans_cons (expected : list ServiceAccount) (o : ServiceAccount)
      (items : list ServiceAccount) :
  orphans expected (o :: items)
  = if kept expected o then orphans expected items else o :: orphans expected items.
Proof.
  unfold orphans. rewrite filter_cons.
  destruct (kept expected o); by case_decide.
Qed.

Lemma elem_of_orphans (expected items : list ServiceAccount) (o : ServiceAccount) :
  o ∈ orphans expected items
  ↔ o ∈ items ∧ (Namespace o, Name o) ∉ identities expected.
Proof.
  unfold orphans. rewrite list_elem_of_filter, <- kept_identities.
  destruct (kept expected o); intuition congruence.
Qed.

Lemma deleted_keys_app (log1 log2 : list entry) :
  deleted_keys (log1 ++ log2) = deleted_keys log1 ++ deleted_keys log2.
Proof. apply omap_app. Qed.

(** The loop of [deleteServiceAccounts] over the listed items: it asks to
    delete orphans only and leaves every other object alone; when it ends
    without error it has asked for every orphan, in order, and none of them
    is left. *)
Lemma delete_items_spec (expected items : list ServiceAccount) (c : cluster) :
  ∃ log,
    calls (delete_items expected items c).1 = calls c ++ log
    ∧ deleted_keys log ⊆ identities (orphans expected items)
    ∧ (∀ k, k ∉ identities (orphans expected items) →
            live (delete_items expected items c).1 !! k = live c !! k)
    ∧ ((delete_items expected items c).2 = None →
       deleted_keys log = identities (orphans expected items)
       ∧ ∀ k, k ∈ identities (orphans expected items) →
              live (delete_items expected items c).1 !! k = None).
Proof.
  revert c. induction items as [|existing rest IH]; intros c.
  { exists []. simpl. rewrite app_nil_r. repeat split; try done.
    intros k Hk. by apply elem_of_nil in Hk. }
  simpl. rewrite orphans_cons.
  destruct (kept expected existing); [apply IH|].
  pose proof (Delete_spec existing c) as [Hd Hlive].
  destruct (Delete existing c) as [c1 [err|]]; simpl in Hd, Hlive.
  - exists [(CallDelete existing, Some err)]. simpl.
    split; [done|]. split; [|split; [|done]].
    + intros k ->%list_elem_of_singleton. apply list_elem_of_here.
    + intros k _. by rewrite Hlive.
  - destruct (IH c1) as (log & Hlog & Hsub & Hframe & Hok).
    exists ((CallDelete existing, None) :: log).
    rewrite Hlog, Hd, <- app_assoc. split; [done|].
    change (identities (existing :: orphans expected rest))
      with ((Namespace existing, Name existing) :: identities (orphans expected rest)).
    split; [|split].
    + intros k [->|Hk]%elem_of_cons; [apply list_elem_of_here|].
      apply list_elem_of_further. by apply Hsub.
    + intros k [Hne Hk]%not_elem_of_cons.
      rewrite Hframe, Hlive by done. by apply lookup_delete_ne.
    + intros Hr. destruct (Hok Hr) as [Heq Hgone]. split; [simpl; by rewrite Heq|].
      intros k Hk.
      destruct (decide (k ∈ identities (orphans expected rest))) as [Hin|Hnin];
        [by apply Hgone|].
      apply elem_of_cons in Hk as [->|Hk]; [|done].
      rewrite Hframe, Hlive by done. apply lookup_delete_eq.
Qed.

(** [deleteServiceAccounts], given the desired set, asks the store to
    delete only live objects of the instance's namespace that carry the two
    ownership labels and whose identity is not in the desired set; it never
    touches an object whose identity is in the desired set; and when it
    ends without error, every such orphan has been asked for and is gone. *)
Lemma deleteServiceAccounts_orphans (params : Params)
        (expected : list ServiceAccount) (c : cluster) :
  ∃ log,
    calls (deleteServiceAccounts params expected c).1 = calls c ++ log
    ∧ (∀ k, k ∈ deleted_keys log →
            (k ∉ identities expected)
            ∧ (∃ b, live c !! k = Some b
                    ∧ k.1 = V1alpha1.Namespace (Instance params)
                    ∧ ownership (Instance params) ⊆ default ∅ (labels_of b)))
    ∧ (∀ k, k ∈ identities expected →
            (k ∉ deleted_keys log)
            ∧ live (deleteServiceAccounts params expected c).1 !! k = live c !! k)
    ∧ ((deleteServiceAccounts params expected c).2 = None →
       ∀ k b, live c !! k = Some b →
              k.1 = V1alpha1.Namespace (Instance params) →
              ownership (Instance params) ⊆ default ∅ (labels_of b) →
              k ∉ identities expected →
              k ∈ deleted_keys log
              ∧ live (deleteServiceAccounts params expected c).1 !! k = None).
Proof.
  unfold deleteServiceAccounts.
  set (ns := V1alpha1.Namespace (Instance params)).
  set (sel := ownership (Instance params)).
  pose proof (List_spec (Some ns) sel c) as (Hl & Hlive & Hitems).
  destruct (List (Some ns) sel c) as [c1 [err|items]]; simpl in Hl, Hlive, Hitems.
  { exists [(CallList (Some ns) sel, Some err)]. simpl. split; [done|].
    split; [by intros k ?%elem_of_nil|]. split; [|done].
    intros k _. split; [by intros ?%elem_of_nil | by rewrite Hlive]. }
  specialize (Hitems items eq_refl). subst items.
  destruct (delete_items_spec expected (selected (Some ns) sel (live c)) c1)
    as (log & Hlog & Hsub & Hframe & Hok).
  assert (∀ k, k ∈ identities (orphans expected (selected (Some ns) sel (live c)))
               ↔ (k ∉ identities expected)
                 ∧ (∃ b, live c !! k = Some b ∧ k.1 = ns ∧ sel ⊆ default ∅ (labels_of b)))
    as Horphan.
  { intros k. unfold identities at 1. rewrite list_elem_of_fmap. split.
    - intros (o & -> & [Hsel Hnot]%elem_of_orphans).
      apply elem_of_selected in Hsel as (Hlk & Hns & Hm).
      split; [done|]. exists (body_of o). split; [done|]. split; [|done].
      simpl in Hns. by apply bool_decide_eq_true in Hns.
    - intros (Hnot & b & Hlk & Hns & Hm).
      exists (object_of k b).
      split; [symmetry; apply (key_of_object k b)|].
      apply elem_of_orphans.
      split; [|change (key_of (object_of k b) ∉ identities expected);
               by rewrite key_of_object].
      apply elem_of_selected. rewrite key_of_object, body_of_object.
      split; [done|]. split; [|done]. simpl. by apply bool_decide_eq_true. }
  exists ((CallList (Some ns) sel, None) :: log).
  rewrite Hlog, Hl, <- app_assoc. split; [done|].
  change (deleted_keys ((CallList (Some ns) sel, None) :: log)) with (deleted_keys log).
  split; [|split].
  - intros k Hk. apply Horphan. by apply Hsub.
  - intros k Hk.
    assert (k ∉ identities (orphans expected (selected (Some ns) sel (live c)))) as Hnot.
    { rewrite Horphan. tauto. }
    split; [|by rewrite Hframe, Hlive].
    intros Hin. by apply Hnot, Hsub.
  - intros Hr k b Hlk Hns Hm Hnot. destruct (Hok Hr) as [Heq Hgone].
    assert (k ∈ identities (orphans expected (selected (Some ns) sel (live c)))) as Hin.
    { apply Horphan. eauto. }
    split; [by rewrite Heq | by apply Hgone].
Qed.

(** The sample of the specification: live [a], [b], [c], all owned;
    desired [a], [c].  One list call, one delete call, for [b]; [a] and [c]
    are as they were. *)
Lemma deleteServiceAccounts_sample :
  let c := cluster_of [owned "a"; owned "b"; owned "c"] [] in
  let out := deleteServiceAccounts sample_params [owned "a"; owned "c"] c in
  out.2 = None
  ∧ deleted_keys (calls out.1) = [("monitoring", "b")]
  ∧ length (calls out.1) = 2
  ∧ live c !! ("monitoring", "b") = Some (body_of (owned "b"))
  ∧ live out.1 !! ("monitoring", "a") = Some (body_of (owned "a"))
  ∧ live out.1 !! ("monitoring", "b") = None
  ∧ live out.1 !! ("monitoring", "c") = Some (body_of (owned "c")).
Proof. repeat (split; [vm_compute; reflexivity|]). vm_compute; reflexivity. Qed.

End ReconcileGarbage.

(** ** The ServiceAccount reconciler: patches *)

Section ReconcilePatches.
Import Client Reconcile.

(** Whenever the desired object is found, a patch is issued, whatever the
    merge yields. *)
Lemma expectedServiceAccounts_patches_found `{Builders} (params : Params)
      (obj desired existing : ServiceAccount) (rest : list ServiceAccount) (c : cluster) :
  SetControllerReference (Instance params) obj = inr desired →
  (Get (Namespace desired, Name desired) c).2 = inr existing →
  ∃ res log,
    calls (expectedServiceAccounts params (obj :: rest) c).1
    = calls c ++ (CallGet (Namespace desired, Name desired), None)
                 :: (CallPatch (merged existing desired) existing, res) :: log.
Proof.
  intros Hset Hget. simpl. rewrite Hset.
  pose proof (Get_spec (Namespace desired, Name desired) c) as (Hg & _ & _).
  destruct (Get _ c) as [c1 r]. simpl in Hget, Hg. subst r.
  pose proof (Patch_spec (merged existing desired) existing c1) as [Hp _].
  destruct (Patch _ existing c1) as [c2 [perr|]]; simpl in Hp.
  - exists (Some perr), []. simpl. by rewrite Hp, Hg, <- app_assoc.
  - destruct (expectedServiceAccounts_trace params rest c2) as (log & Hlog & _).
    exists None, log. by rewrite Hlog, Hp, Hg, <- !app_assoc.
Qed.

(** C2 is contradicted on a converged object: the live service account
    already carries the desired labels, annotations and owner reference, the
    merge yields the live object itself, and a patch is issued all the
    same. *)
Lemma expectedServiceAccounts_patches_converged :
  let c := cluster_of [owned "agent-collector"] [] in
  let out := expectedServiceAccounts sample_params (desiredServiceAccounts sample_params) c in
  (Get ("monitoring", "agent-collector") c).2 = inr (owned "agent-collector")
  ∧ (∀ desired,
       SetControllerReference sample_instance (collector_ServiceAccount sample_instance)
       = inr desired →
       merged (owned "agent-collector") desired = owned "agent-collector")
  ∧ out.2 = None
  ∧ patches (calls out.1) = [(owned "agent-collector", owned "agent-collector")].
Proof.
  split; [reflexivity|]. split; [by intros desired [= <-]|].
  split; reflexivity.
Qed.

End ReconcilePatches.

(** ** The instrumentation batch upgrader *)

Section InstrumentationFacts.
Import Client Instrumentation.

(** The comparison of [ManagedInstances] is between a pointer and a
    struct, and so never holds. *)
Lemma DeepEqual_pointer_struct (upgraded toUpgrade : Instrumentation) :
  DeepEqual (Pointer upgraded) (Struct toUpgrade) = false.
Proof. reflexivity. Qed.

Lemma updates_app (log1 log2 : list (call Instrumentation * option error)) :
  updates (log1 ++ log2) = updates log1 ++ updates log2.
Proof. apply omap_app. Qed.

Lemma upgrade_items_cons `{Constants} (u : InstrumentationUpgrade)
      (toUpgrade : Instrumentation) (rest : list Instrumentation) (c : cluster) :
  (upgrade_items u (toUpgrade :: rest) c).1
  = (upgrade_items u rest (Update (upgrade u toUpgrade).1 c).1).1.
Proof.
  cbn [upgrade_items]. destruct (upgrade u toUpgrade) as [upgraded evs].
  rewrite DeepEqual_pointer_struct. cbn [negb fst].
  by destruct (upgrade_items u rest (Update upgraded c).1).
Qed.

(** Every listed instance is written back, changed or not. *)
Lemma upgrade_items_updates `{Constants} (u : InstrumentationUpgrade)
      (items : list Instrumentation) (c : cluster) :
  updates (calls (upgrade_items u items c).1)
  = updates (calls c) ++ ((λ inst, (upgrade u inst).1) <$> items).
Proof.
  revert c. induction items as [|toUpgrade rest IH]; intros c.
  { cbn [upgrade_items fst fmap list_fmap]. by rewrite app_nil_r. }
  rewrite upgrade_items_cons, IH, Update_spec, updates_app, fmap_cons, <- app_assoc.
  reflexivity.
Qed.

(** An instance whose annotation names the image it runs is moved to the
    current default image. *)
Lemma upgrade_outdated :
  (upgrade sample_upgrader outdated).1
  = {| Name := "java-instrumentation"; Namespace := "default";
       Labels := Some managed;
       Annotations :=
         Some {[ "instrumentation.opentelemetry.io/default-auto-instrumentation-java-image"
                 := "java-autoinstrumentation:2" ]};
       Java_Image := "java-autoinstrumentation:2" |}.
Proof. vm_compute. reflexivity. Qed.

(** C9 is contradicted on an instance the upgrade leaves as it is: the
    upgraded value equals the stored one, and the store is asked to write
    it. *)
Lemma ManagedInstances_writes_unchanged :
  let out := ManagedInstances sample_upgrader (cluster_of [settled]) in
  (upgrade sample_upgrader settled).1 = settled
  ∧ out.2 = None
  ∧ updates (calls out.1.1) = [settled].
Proof. vm_compute. repeat split; reflexivity. Qed.

End InstrumentationFacts.

(** ** The v0.31.0 step: what it drops and what it keeps *)

Section ScrubFacts.
Import Yaml V1alpha1 Upgrade Scrub.

Lemma lookup_set_key (k : scalar) (v : value) (m : document) :
  lookup_key k (set_key k v m) = Some v.
Proof.
  induction m as [|[k' v'] m IH]; simpl.
  - by rewrite decide_True.
  - destruct (decide (k' = k)) as [->|Hne]; simpl.
    + by rewrite decide_True.
    + by rewrite decide_False.
Qed.

Lemma string_keys_cons (kv : scalar * value) (m : document) :
  string_keys (kv :: m) ↔ (∃ s, kv.1 = SStr s) ∧ string_keys m.
Proof.
  unfold string_keys. split.
  - intros Hk. split.
    + destruct kv as [k v]. apply (Hk k v), list_elem_of_here.
    + intros k v Hin. apply (Hk k v). by apply list_elem_of_further.
  - intros [Hkv Hm] k v [Heq|Hin]%elem_of_cons; [|by apply (Hm k v)].
    by rewrite <- Heq in Hkv.
Qed.

(** The inner loop on a map keyed by strings. *)
Lemma drop_metrics_schema_filter `{Codec} (k : string) (fields : document) :
  string_keys fields →
  drop_metrics_schema k fields
  = Through (List.filter keep_field fields)
            ((λ _, dropped_event k) <$> List.filter (λ f, negb (keep_field f)) fields).
Proof.
  induction fields as [|[fk fv] rest IH]; [done|].
  intros [[s Hs] Hrest]%string_keys_cons. simpl in Hs. subst fk.
  cbn [drop_metrics_schema List.filter]. rewrite (IH Hrest).
  assert (keep_field (SStr s, fv) = negb (HasPrefix s "metrics_schema")) as ->
    by reflexivity.
  by destruct (HasPrefix s "metrics_schema").
Qed.

Lemma receivers_string_keyed_cons (kv : scalar * value) (m : document) :
  receivers_string_keyed (kv :: m) →
  (∃ k, kv.1 = SStr k
        ∧ ∀ fields, kv.2 = VMap fields → HasPrefix k "influxdb" = true → string_keys fields)
  ∧ receivers_string_keyed m.
Proof.
  intros [Hk Hf]. apply string_keys_cons in Hk as [[k Hkv] Hm].
  destruct kv as [rk rv]. simpl in Hkv. subst rk. split.
  - exists k. split; [done|]. simpl. intros fields -> Hp.
    apply (Hf k fields); [apply list_elem_of_here | done].
  - split; [done|]. intros k' fields Hin. apply Hf. by apply list_elem_of_further.
Qed.

Lemma influxdb_maps_cons (kv : scalar * value) (m : document) :
  influxdb_maps (kv :: m) →
  (∀ k, kv.1 = SStr k → HasPrefix k "influxdb" = true → ∃ fields, kv.2 = VMap fields)
  ∧ influxdb_maps m.
Proof.
  intros Hm. split.
  - destruct kv as [rk rv]. simpl. intros k -> Hp.
    apply (Hm k rv); [apply list_elem_of_here | done].
  - intros k v Hin. apply Hm. by apply list_elem_of_further.
Qed.

(** The outer loop runs through exactly when keys are strings and every
    [influxdb...] receiver is a map, and then yields the scrubbed receivers
    and one event for each dropped field. *)
Lemma scan_receivers_scrubbed `{Codec} (receivers : document) :
  receivers_string_keyed receivers → influxdb_maps receivers →
  scan_receivers receivers = Through (scrubbed receivers) (dropped receivers).
Proof.
  induction receivers as [|[rk rv] rest IH]; [done|].
  intros [(k & Hk & Hfields) Hrest]%receivers_string_keyed_cons
         [Hmap Hmaps]%influxdb_maps_cons.
  simpl in Hk, Hfields, Hmap. subst rk.
  cbn [scan_receivers]. rewrite (IH Hrest Hmaps).
  unfold scrubbed, dropped. cbn [fmap list_fmap mbind list_bind scrub_entry dropped_of].
  destruct (HasPrefix k "influxdb") eqn:Hp.
  - destruct (Hmap k eq_refl Hp) as [fields ->].
    by rewrite (drop_metrics_schema_filter k fields (Hfields fields eq_refl eq_refl)).
  - by destruct rv.
Qed.

Lemma scrubbed_untargeted (receivers : document) : ¬ targets_receiver (scrubbed receivers).
Proof.
  intros (k & fields & Hin & Hp & fk & fv & Hf & Hfp).
  apply list_elem_of_fmap in Hin as ([rk rv] & Heq & _).
  destruct rk as [| | |k0]; try (simpl in Heq; congruence).
  destruct rv as [| |fields0]; try (simpl in Heq; congruence).
  simpl in Heq. destruct (HasPrefix k0 "influxdb") eqn:Hp0.
  - injection Heq as -> ->.
    apply list_elem_of_In, filter_In in Hf as [_ Hkeep].
    unfold keep_field in Hkeep. simpl in Hkeep. by rewrite Hfp in Hkeep.
  - injection Heq as -> ->. congruence.
Qed.

Lemma scrubbed_keys (receivers : document) : (scrubbed receivers).*1 = receivers.*1.
Proof.
  unfold scrubbed. rewrite <- list_fmap_compose. apply list_fmap_ext.
  intros i [rk rv] _. simpl. destruct rk; try done. destruct rv; try done.
  by destruct (HasPrefix s "influxdb").
Qed.

End ScrubFacts.

Section ScrubStep.
Import Yaml V1alpha1 Upgrade Scrub.

Lemma drop_metrics_schema_kept `{Codec} (k : string) (fields : document) :
  string_keys fields →
  drop_metrics_schema k (List.filter keep_field fields)
  = Through (List.filter keep_field fields) [].
Proof.
  induction fields as [|[fk fv] rest IH]; [done|].
  intros [[s Hs] Hrest]%string_keys_cons. simpl in Hs. subst fk.
  cbn [List.filter].
  assert (keep_field (SStr s, fv) = negb (HasPrefix s "metrics_schema")) as ->
    by reflexivity.
  destruct (HasPrefix s "metrics_schema") eqn:Hp; cbn [negb]; [by apply IH|].
  cbn [drop_metrics_schema]. by rewrite Hp, (IH Hrest).
Qed.

(** A second run over scrubbed receivers changes nothing and records
    nothing. *)
Lemma scan_receivers_scrubbed_again `{Codec} (receivers : document) :
  receivers_string_keyed receivers → influxdb_maps receivers →
  scan_receivers (scrubbed receivers) = Through (scrubbed receivers) [].
Proof.
  induction receivers as [|[rk rv] rest IH]; [done|].
  intros [(k & Hk & Hfields) Hrest]%receivers_string_keyed_cons
         [Hmap Hmaps]%influxdb_maps_cons.
  simpl in Hk, Hfields, Hmap. subst rk.
  unfold scrubbed in *.
  change (scrub_entry <$> (SStr k, rv) :: rest)
    with (scrub_entry (SStr k, rv) :: (scrub_entry <$> rest)).
  destruct (HasPrefix k "influxdb") eqn:Hp.
  - destruct (Hmap k eq_refl Hp) as [fields ->].
    cbn [scrub_entry]. rewrite Hp. cbn [scan_receivers]. rewrite Hp.
    rewrite (drop_metrics_schema_kept k fields (Hfields fields eq_refl eq_refl)).
    by rewrite (IH Hrest Hmaps).
  - assert (scrub_entry (SStr k, rv) = (SStr k, rv)) as ->.
    { destruct rv; try done. simpl. by rewrite Hp. }
    cbn [scan_receivers]. by rewrite Hp, (IH Hrest Hmaps).
Qed.

(** A receiver [influxdb...] that is not a map ends the outer loop. *)
Lemma scan_receivers_non_map `{Codec} (receivers : document) (k : string) (v : value) :
  receivers_string_keyed receivers →
  (SStr k, v) ∈ receivers → HasPrefix k "influxdb" = true → (∀ fields, v ≠ VMap fields) →
  ∃ evs, scan_receivers receivers = Left_early evs.
Proof.
  induction receivers as [|[rk rv] rest IH]; intros Hkeys Hin Hp Hv.
  { by apply elem_of_nil in Hin. }
  apply receivers_string_keyed_cons in Hkeys as [(k0 & Hk0 & Hfields) Hrest].
  simpl in Hk0, Hfields. subst rk. cbn [scan_receivers].
  apply elem_of_cons in Hin as [[= <- <-]|Hin].
  - rewrite Hp. destruct v as [s|items|fields]; [by eexists | by eexists|].
    by destruct (Hv fields).
  - destruct (IH Hrest Hin Hp Hv) as [evs' ->].
    destruct (HasPrefix k0 "influxdb") eqn:Hp0; [|by eexists].
    destruct rv as [s|items|fields]; [by eexists | by eexists|].
    rewrite (drop_metrics_schema_filter k0 fields (Hfields fields eq_refl eq_refl)).
    by eexists.
Qed.

(** The run of the step on such a configuration. *)
Lemma upgrade0_31_0_run_through `{Codec} (st : state) (p : positive)
      (obj : AmazonCloudWatchAgent) (doc receivers : document) :
  objects st !! p = Some obj →
  Config (Spec obj) ≠ EmptyString →
  ConfigFromString (Config (Spec obj)) = (Some doc, None) →
  lookup_key (SStr "receivers") doc = Some (VMap receivers) →
  receivers_string_keyed receivers →
  influxdb_maps receivers →
  upgrade0_31_0 p st
  = match Marshal (set_key (SStr "receivers") (VMap (scrubbed receivers)) doc) with
    | (text, None) =>
        Returned (store_Config p text (record_events (dropped receivers) st)) p None
    | (_, Some err) =>
        Returned (record_events (dropped receivers) st) p
          (Some (Errorf "couldn't upgrade to v0.31.0, failed to marshall back configuration" err))
    end.
Proof.
  intros Hobj Hne Hparse Hl Hkeys Hmaps.
  unfold upgrade0_31_0. rewrite Hobj, Hparse.
  destruct (Config (Spec obj)) as [|c rest] eqn:Hc; [done|].
  cbn [String.length Nat.eqb default from_option id]. rewrite Hl.
  rewrite (scan_receivers_scrubbed receivers Hkeys Hmaps).
  by destruct (Marshal _) as [text [err|]].
Qed.

(** X1: on a configuration whose receivers are keyed by strings and whose
    [influxdb...] receivers are all maps, the step records one event for
    each dropped field, naming the receiver as [%q] quotes it, and hands
    the scrubbed document to the serializer;
    the scrubbed receivers hold no [influxdb...] receiver with a
    [metrics_schema...] field, have the keys of the original in the same
    order, and keep every receiver that is not [influxdb...] and every
    field that is not [metrics_schema...]. *)
Theorem upgrade0_31_0_drops_deprecated_fields `{Codec} (st : state) (p : positive)
        (obj : AmazonCloudWatchAgent) (doc receivers : document) :
  objects st !! p = Some obj →
  Config (Spec obj) ≠ EmptyString →
  ConfigFromString (Config (Spec obj)) = (Some doc, None) →
  lookup_key (SStr "receivers") doc = Some (VMap receivers) →
  receivers_string_keyed receivers →
  influxdb_maps receivers →
  upgrade0_31_0 p st
  = match Marshal (set_key (SStr "receivers") (VMap (scrubbed receivers)) doc) with
    | (text, None) =>
        Returned (store_Config p text (record_events (dropped receivers) st)) p None
    | (_, Some err) =>
        Returned (record_events (dropped receivers) st) p
          (Some (Errorf "couldn't upgrade to v0.31.0, failed to marshall back configuration" err))
    end
  ∧ ¬ targets_receiver (scrubbed receivers)
  ∧ (scrubbed receivers).*1 = receivers.*1
  ∧ (∀ k v, (SStr k, v) ∈ receivers → HasPrefix k "influxdb" = false →
            (SStr k, v) ∈ scrubbed receivers)
  ∧ (∀ k fields fk fv,
       (SStr k, VMap fields) ∈ receivers → (fk, fv) ∈ fields → keep_field (fk, fv) = true →
       ∃ fields', (SStr k, VMap fields') ∈ scrubbed receivers ∧ (fk, fv) ∈ fields').
Proof.
  intros Hobj Hne Hparse Hl Hkeys Hmaps.
  split; [|split; [apply scrubbed_untargeted|split; [apply scrubbed_keys|split]]].
  - by apply (upgrade0_31_0_run_through st p obj).
  - intros k v Hin Hp. apply list_elem_of_fmap. exists (SStr k, v).
    split; [|done]. destruct v; try done. simpl. by rewrite Hp.
  - intros k fields fk fv Hin Hf Hkeep.
    destruct (HasPrefix k "influxdb") eqn:Hp.
    + exists (List.filter keep_field fields). split.
      * apply list_elem_of_fmap. exists (SStr k, VMap fields).
        split; [|done]. simpl. by rewrite Hp.
      * apply list_elem_of_In, filter_In. split; [by apply list_elem_of_In | done].
    + exists fields. split; [|done].
      apply list_elem_of_fmap. exists (SStr k, VMap fields).
      split; [|done]. simpl. by rewrite Hp.
Qed.

Lemma receivers_deprecated_keyed : receivers_string_keyed receivers_deprecated.
Proof.
  split.
  - intros k v [= -> ->]%list_elem_of_singleton. by eexists.
  - intros k fields [= -> ->]%list_elem_of_singleton _ fk fv Hin.
    repeat (apply elem_of_cons in Hin as [[= -> ->]|Hin]; [by eexists|]).
    by apply elem_of_nil in Hin.
Qed.

Lemma receivers_deprecated_maps : influxdb_maps receivers_deprecated.
Proof. intros k v [= -> ->]%list_elem_of_singleton _. by eexists. Qed.

Lemma upgrade0_31_0_drops_deprecated_fields_witness :
  upgrade0_31_0 1 (single text_deprecated)
  = Returned (store_Config 1 text_scrubbed
                (record_events [dropped_event "influxdb/in"] (single text_deprecated)))
             1 None.
Proof.
  exact (proj1 (upgrade0_31_0_drops_deprecated_fields (H := yaml_codec)
                  (single text_deprecated) 1 _ doc_deprecated receivers_deprecated
                  eq_refl ltac:(discriminate) eq_refl eq_refl
                  receivers_deprecated_keyed receivers_deprecated_maps)).
Defined.

(** X2: the step is idempotent on such a configuration, provided the text
    it writes reads back as the document it was written from: a second run
    returns the state the first run left, with no further event. *)
Theorem upgrade0_31_0_idempotent `{Codec} (st : state) (p : positive)
        (obj : AmazonCloudWatchAgent) (doc receivers : document) (text : string) :
  objects st !! p = Some obj →
  Config (Spec obj) ≠ EmptyString →
  ConfigFromString (Config (Spec obj)) = (Some doc, None) →
  lookup_key (SStr "receivers") doc = Some (VMap receivers) →
  receivers_string_keyed receivers →
  influxdb_maps receivers →
  Marshal (set_key (SStr "receivers") (VMap (scrubbed receivers)) doc) = (text, None) →
  ConfigFromString text
  = (Some (set_key (SStr "receivers") (VMap (scrubbed receivers)) doc), None) →
  ∃ st1, upgrade0_31_0 p st = Returned st1 p None
         ∧ text_behind st1 p = Some text
         ∧ upgrade0_31_0 p st1 = Returned st1 p None.
Proof.
  intros Hobj Hne Hparse Hl Hkeys Hmaps Hm Hback.
  set (doc' := set_key (SStr "receivers") (VMap (scrubbed receivers)) doc) in *.
  set (st1 := store_Config p text (record_events (dropped receivers) st)).
  assert (objects st1 !! p = Some (with_Config text obj)) as Hobj1.
  { unfold st1. simpl. by rewrite lookup_alter_eq, Hobj. }
  assert (store_Config p text st1 = st1) as Hfix.
  { unfold store_Config. destruct st1 as [objs evs] eqn:Hst1. simpl in *. f_equal.
    apply alter_id. intros x Hx. rewrite Hobj1 in Hx. by injection Hx as <-. }
  exists st1. split; [|split].
  - rewrite (upgrade0_31_0_run_through st p obj doc receivers) by done.
    fold doc'. by rewrite Hm.
  - unfold text_behind. by rewrite Hobj1.
  - unfold upgrade0_31_0. rewrite Hobj1.
    change (Config (Spec (with_Config text obj))) with text.
    destruct (String.length text =? 0)%nat; [done|].
    rewrite Hback. cbn [default from_option id].
    unfold doc' at 1. rewrite lookup_set_key.
    rewrite (scan_receivers_scrubbed_again receivers Hkeys Hmaps).
    rewrite record_no_events.
    assert (set_key (SStr "receivers") (VMap (scrubbed receivers)) doc' = doc') as ->.
    { apply set_key_lookup. unfold doc'. apply lookup_set_key. }
    by rewrite Hm, Hfix.
Qed.

Lemma upgrade0_31_0_idempotent_witness :
  ∃ st1, upgrade0_31_0 1 (single text_deprecated) = Returned st1 1 None
         ∧ text_behind st1 1 = Some text_scrubbed
         ∧ upgrade0_31_0 1 st1 = Returned st1 1 None.
Proof.
  exact (upgrade0_31_0_idempotent (H := yaml_codec) (single text_deprecated) 1 _
           doc_deprecated receivers_deprecated text_scrubbed
           eq_refl ltac:(discriminate) eq_refl eq_refl
           receivers_deprecated_keyed receivers_deprecated_maps eq_refl eq_refl).
Defined.

(** X3: when some [influxdb...] receiver is not a map (and the receivers
    are keyed by strings), the step gives up without error and leaves the
    embedded text as it is, whatever the other receivers hold; at most it
    has recorded events for fields met before it gave up. *)
Theorem upgrade0_31_0_gives_up_on_non_map `{Codec} (st : state) (p : positive)
        (obj : AmazonCloudWatchAgent) (doc receivers : document) (k : string) (v : value) :
  objects st !! p = Some obj →
  ConfigFromString (Config (Spec obj)) = (Some doc, None) →
  lookup_key (SStr "receivers") doc = Some (VMap receivers) →
  receivers_string_keyed receivers →
  (SStr k, v) ∈ receivers →
  HasPrefix k "influxdb" = true →
  (∀ fields, v ≠ VMap fields) →
  ∃ evs, upgrade0_31_0 p st = Returned (record_events evs st) p None
         ∧ text_behind (record_events evs st) p = Some (Config (Spec obj)).
Proof.
  intros Hobj Hparse Hl Hkeys Hin Hp Hv.
  destruct (scan_receivers_non_map receivers k v Hkeys Hin Hp Hv) as [evs Hscan].
  unfold upgrade0_31_0, text_behind. rewrite Hobj, Hparse.
  destruct (String.length _ =? 0)%nat.
  - exists []. rewrite record_no_events. by rewrite Hobj.
  - cbn [default from_option id]. rewrite Hl, Hscan. exists evs. simpl. by rewrite Hobj.
Qed.

Lemma receivers_mixed_keyed : receivers_string_keyed receivers_mixed.
Proof.
  split.
  - intros k v Hin.
    repeat (apply elem_of_cons in Hin as [[= -> ->]|Hin]; [by eexists|]).
    by apply elem_of_nil in Hin.
  - intros k fields Hin _ fk fv Hf.
    apply elem_of_cons in Hin as [[= -> ->]|Hin].
    + apply list_elem_of_singleton in Hf as [= -> ->]. by eexists.
    + apply list_elem_of_singleton in Hin. discriminate.
Qed.

Lemma upgrade0_31_0_gives_up_on_non_map_witness :
  ∃ evs, upgrade0_31_0 1 (single text_mixed)
         = Returned (record_events evs (single text_mixed)) 1 None
         ∧ text_behind (record_events evs (single text_mixed)) 1 = Some text_mixed.
Proof.
  refine (upgrade0_31_0_gives_up_on_non_map (H := yaml_codec) (single text_mixed) 1 _
            doc_mixed receivers_mixed "influxdb/b" (VScalar SNull)
            eq_refl eq_refl eq_refl receivers_mixed_keyed _ eq_refl _).
  - apply list_elem_of_further, list_elem_of_here.
  - discriminate.
Defined.

End ScrubStep.

(** ** The ServiceAccount reconciler: the merge and the two phases *)

Section ReconcilePhases.
Import Client Reconcile Phase.

Lemma lookup_union_first (m1 m2 : labels) (k : string) :
  (m1 ∪ m2) !! k = match m1 !! k with Some v => Some v | None => m2 !! k end.
Proof.
  rewrite lookup_union. destruct (m1 !! k), (m2 !! k); reflexivity.
Qed.

Lemma union_absorb (m1 m2 : labels) : m1 ∪ (m1 ∪ m2) = m1 ∪ m2.
Proof. by rewrite (assoc_L (∪)), (idemp_L (∪)). Qed.

(** X4: the merge of lines 91 to 105 keeps the identity of the live object
    and what the cluster filled in; it takes the owner references of the
    desired object; for labels and for annotations a key of the desired
    object gets the desired value and every other key keeps the live one;
    the maps of the result are never nil; and merging the same desired
    object into the result again changes nothing. *)
Theorem merged_keeps_foreign_fields (existing desired : ServiceAccount) :
  Name (merged existing desired) = Name existing
  ∧ Namespace (merged existing desired) = Namespace existing
  ∧ Secrets (merged existing desired) = Secrets existing
  ∧ OwnerReferences (merged existing desired) = OwnerReferences desired
  ∧ (∃ ls, Labels (merged existing desired) = Some ls
           ∧ ∀ k, ls !! k = match default ∅ (Labels desired) !! k with
                            | Some v => Some v
                            | None => default ∅ (Labels existing) !! k
                            end)
  ∧ (∃ an, Annotations (merged existing desired) = Some an
           ∧ ∀ k, an !! k = match default ∅ (Annotations desired) !! k with
                            | Some v => Some v
                            | None => default ∅ (Annotations existing) !! k
                            end)
  ∧ merged (merged existing desired) desired = merged existing desired.
Proof.
  repeat (split; [reflexivity|]).
  split; [|split].
  - eexists. split; [reflexivity|]. intros k. apply lookup_union_first.
  - eexists. split; [reflexivity|]. intros k. apply lookup_union_first.
  - unfold merged. simpl. by rewrite !union_absorb.
Qed.

Lemma Create_absent (o : ServiceAccount) (c : cluster) :
  (Create o c).2 = None → live c !! key_of o = None.
Proof.
  unfold Create. destruct (injected c); [discriminate|].
  by destruct (live c !! key_of o).
Qed.

Section WithBuilders.
Context `{Builders}.

(** The phase stops: nothing was written. *)
Lemma phase_stop (params : Params) (expected : list ServiceAccount) (c c1 : cluster)
      (e : error) (log : list entry) :
  calls c1 = calls c ++ log → forallb reads_or_writes log = true → live c1 = live c →
  phase_spec params expected c (c1, Some e).
Proof.
  intros Hcalls Hlog Hlive. exists log. simpl. rewrite Hlive.
  split; [done|]. split; [done|]. split; [eauto|]. split; done.
Qed.

(** The phase wrote one desired object and goes on with the rest. *)
Lemma phase_extend (params : Params) (obj desired : ServiceAccount)
      (rest : list ServiceAccount) (c c2 : cluster) (log0 : list entry)
      (nb : @Body ServiceAccount ServiceAccount_resource)
      (out : cluster * option error) :
  SetControllerReference (Instance params) obj = inr desired →
  calls c2 = calls c ++ log0 → forallb reads_or_writes log0 = true →
  live c2 = <[(Namespace desired, Name desired) := nb]> (live c) →
  (∀ b, live c !! (Namespace desired, Name desired) = Some b → secrets_of nb = secrets_of b) →
  phase_spec params rest c2 out →
  phase_spec params (obj :: rest) c out.
Proof.
  intros Hset Hcalls Hlog0 Hlive Hsec (log & Hlog & Hall & Hmono & Hframe & Hdone).
  exists (log0 ++ log). rewrite Hlog, Hcalls, <- app_assoc.
  split; [done|]. split; [by rewrite forallb_app, Hlog0, Hall|].
  split; [|split].
  - intros k b Hk.
    destruct (decide (k = (Namespace desired, Name desired))) as [->|Hne].
    + destruct (Hmono (Namespace desired, Name desired) nb) as (b' & Hb' & Hs).
      { by rewrite Hlive, lookup_insert_eq. }
      exists b'. split; [done|]. rewrite Hs. by apply Hsec.
    + apply Hmono. by rewrite Hlive, lookup_insert_ne.
  - intros k Hk. rewrite Hframe.
    + rewrite Hlive. apply lookup_insert_ne. apply (Hk obj desired); [left | done].
    + intros obj' desired' Hin. apply Hk. by right.
  - intros Hr obj' [->|Hin]%elem_of_cons; [|by apply Hdone].
    exists desired. split; [done|].
    destruct (Hmono (Namespace desired, Name desired) nb) as (b' & Hb' & _); [|by eexists].
    by rewrite Hlive, lookup_insert_eq.
Qed.

Lemma expectedServiceAccounts_phase (params : Params) (expected : list ServiceAccount)
      (c : cluster) :
  phase_spec params expected c (expectedServiceAccounts params expected c).
Proof.
  revert c. induction expected as [|obj rest IH]; intros c.
  { exists []. simpl. rewrite app_nil_r. split; [done|]. split; [done|].
    split; [eauto|]. split; [done|]. by intros _ obj ?%elem_of_nil. }
  cbn [expectedServiceAccounts].
  destruct (SetControllerReference (Instance params) obj) as [err|desired] eqn:Hset.
  { apply (phase_stop _ _ _ _ _ []); [symmetry; apply app_nil_r | reflexivity | reflexivity]. }
  pose proof (Get_spec (Namespace desired, Name desired) c) as (Hg & Hgl & Hgo).
  destruct (Get _ c) as [c1 [err|existing]]; cbn [fst snd] in Hg, Hgl, Hgo.
  - destruct (IsNotFound err) eqn:Hnf.
    + pose proof (Create_spec desired c1) as [Hc Hcl].
      pose proof (Create_absent desired c1) as Habs.
      destruct (Create desired c1) as [c2 [cerr|]]; cbn [fst snd] in Hc, Hcl, Habs.
      * eapply (phase_stop _ _ _ _ _ [_; _]);
          [rewrite Hc, Hg, <- app_assoc; reflexivity | reflexivity | by rewrite Hcl].
      * eapply (phase_extend _ _ _ _ _ _ [_; _] (body_of desired));
          [done | rewrite Hc, Hg, <- app_assoc; reflexivity | reflexivity
           | by rewrite Hcl, Hgl | | apply IH].
        intros b Hb. specialize (Habs eq_refl). rewrite Hgl in Habs.
        change (key_of desired) with (Namespace desired, Name desired) in Habs.
        rewrite Habs in Hb. discriminate.
    + eapply (phase_stop _ _ _ _ _ [_]); [by rewrite Hg | reflexivity | done].
  - destruct (Hgo existing eq_refl) as [Hkey Hlk].
    pose proof (Patch_spec (merged existing desired) existing c1) as [Hp Hpl].
    change (key_of (merged existing desired)) with (key_of existing) in Hpl.
    rewrite Hkey in Hpl.
    destruct (Patch _ existing c1) as [c2 [perr|]]; cbn [fst snd] in Hp, Hpl.
    + eapply (phase_stop _ _ _ _ _ [_; _]);
        [rewrite Hp, Hg, <- app_assoc; reflexivity | reflexivity | by rewrite Hpl].
    + eapply (phase_extend _ _ _ _ _ _ [_; _] (body_of (merged existing desired)));
        [done | rewrite Hp, Hg, <- app_assoc; reflexivity | reflexivity | | | apply IH].
      * by rewrite Hpl, Hgl.
      * intros b Hb. rewrite Hlk in Hb. by injection Hb as <-.
Qed.

(** X5: the create-and-update phase only gets, creates and patches; every
    object that was live is still live afterwards, with the secrets it
    had; an identity that no desired object has is left as it was; and when
    the phase ends without error, every desired object is live. *)
Theorem expectedServiceAccounts_only_adds (params : Params)
        (expected : list ServiceAccount) (c : cluster) :
  ∃ log,
    calls (expectedServiceAccounts params expected c).1 = calls c ++ log
    ∧ forallb reads_or_writes log = true
    ∧ (∀ k b, live c !! k = Some b →
              ∃ b', live (expectedServiceAccounts params expected c).1 !! k = Some b'
                    ∧ secrets_of b' = secrets_of b)
    ∧ (∀ k, (∀ obj desired, obj ∈ expected →
                            SetControllerReference (Instance params) obj = inr desired →
                            (Namespace desired, Name desired) ≠ k) →
            live (expectedServiceAccounts params expected c).1 !! k = live c !! k)
    ∧ ((expectedServiceAccounts params expected c).2 = None →
       ∀ obj, obj ∈ expected →
              ∃ desired, SetControllerReference (Instance params) obj = inr desired
                         ∧ is_Some (live (expectedServiceAccounts params expected c).1
                                      !! (Namespace desired, Name desired))).
Proof. exact (expectedServiceAccounts_phase params expected c). Qed.

End WithBuilders.

End ReconcilePhases.

(** ** The ServiceAccount reconciler: the whole pass *)

Section ReconcilePass.
Import Client Reconcile Phase.

#[local] Abbreviation SABody := (@Body ServiceAccount ServiceAccount_resource).

(** The identities of the orphans among what [List] selects. *)
Lemma elem_of_orphan_identities (ns : string) (sel : labels)
      (expected : list ServiceAccount) (objs : gmap key SABody) (k : key) :
  k ∈ identities (orphans expected (selected (Some ns) sel objs))
  ↔ (k ∉ identities expected)
    ∧ (∃ b, objs !! k = Some b ∧ k.1 = ns ∧ sel ⊆ default ∅ (labels_of b)).
Proof.
  unfold identities at 1. rewrite list_elem_of_fmap. split.
  - intros (o & -> & [Hsel Hnot]%elem_of_orphans).
    apply elem_of_selected in Hsel as (Hlk & Hns & Hm).
    split; [done|]. exists (body_of o). split; [done|]. split; [|done].
    simpl in Hns. by apply bool_decide_eq_true in Hns.
  - intros (Hnot & b & Hlk & Hns & Hm).
    exists (object_of k b).
    split; [symmetry; apply (key_of_object k b)|].
    apply elem_of_orphans.
    split; [|change (key_of (object_of k b) ∉ identities expected);
             by rewrite key_of_object].
    apply elem_of_selected. rewrite key_of_object, body_of_object.
    split; [done|]. split; [|done]. simpl. by apply bool_decide_eq_true.
Qed.

(** After a completed deletion phase, an owned object of the namespace has
    a desired identity. *)
Lemma deleteServiceAccounts_completed (params : Params) (expected : list ServiceAccount)
      (c : cluster) (k : key) (b : SABody) :
  (deleteServiceAccounts params expected c).2 = None →
  live (deleteServiceAccounts params expected c).1 !! k = Some b →
  k.1 = V1alpha1.Namespace (Instance params) →
  ownership (Instance params) ⊆ default ∅ (labels_of b) →
  k ∈ identities expected.
Proof.
  unfold deleteServiceAccounts.
  set (ns := V1alpha1.Namespace (Instance params)).
  set (sel := ownership (Instance params)).
  pose proof (List_spec (Some ns) sel c) as (_ & Hlive & Hitems).
  destruct (List (Some ns) sel c) as [c1 [err|items]]; cbn [fst snd] in *; [done|].
  specialize (Hitems items eq_refl). subst items.
  destruct (delete_items_spec expected (selected (Some ns) sel (live c)) c1)
    as (log & _ & _ & Hframe & Hok).
  intros Hr Hk Hns Hm. destruct (Hok Hr) as [_ Hgone].
  destruct (decide (k ∈ identities (orphans expected (selected (Some ns) sel (live c)))))
    as [Hin|Hnin].
  { rewrite (Hgone k Hin) in Hk. discriminate. }
  destruct (decide (k ∈ identities expected)) as [|Hnot]; [done|].
  pose proof (Hframe k Hnin) as Hsame.
  destruct Hnin. apply elem_of_orphan_identities. split; [done|].
  exists b. by rewrite <- Hlive, <- Hsame.
Qed.

(** The deletion phase only lists and deletes. *)
Lemma deleteServiceAccounts_calls (params : Params) (expected : list ServiceAccount)
      (c : cluster) :
  ∃ log, calls (deleteServiceAccounts params expected c).1 = calls c ++ log
         ∧ forallb (λ e, negb (reads_or_writes e)) log = true.
Proof.
  unfold deleteServiceAccounts.
  pose proof (List_spec (Some (V1alpha1.Namespace (Instance params)))
                        (ownership (Instance params)) c) as (Hl & _ & _).
  destruct (List _ _ c) as [c1 [err|items]]; cbn [fst snd] in Hl.
  { eexists [_]. simpl. by rewrite Hl. }
  assert (∃ log, calls (delete_items expected items c1).1 = calls c1 ++ log
                 ∧ forallb (λ e, negb (reads_or_writes e)) log = true)
    as (log & Hlog & Hall).
  { clear Hl. revert c1. induction items as [|existing rest IH]; intros c1; simpl.
    { exists []. by rewrite app_nil_r. }
    destruct (kept expected existing); [apply IH|].
    pose proof (Delete_spec existing c1) as [Hd _].
    destruct (Delete existing c1) as [c2 [err|]]; cbn [fst snd] in Hd.
    - eexists [_]. simpl. by rewrite Hd.
    - destruct (IH c2) as (log & Hlog & Hall).
      exists ((CallDelete existing, None) :: log).
      rewrite Hlog, Hd, <- app_assoc. split; [done|]. simpl. exact Hall. }
  exists ((CallList (Some (V1alpha1.Namespace (Instance params)))
                    (ownership (Instance params)), None) :: log).
  rewrite Hlog, Hl, <- app_assoc. split; [done|]. simpl. exact Hall.
Qed.

Lemma ServiceAccounts_no_orphan_aux `{Builders} (params : Params) (c : cluster)
      (k : key) (b : SABody) :
  (ServiceAccounts params c).2 = None →
  live (ServiceAccounts params c).1 !! k = Some b →
  k.1 = V1alpha1.Namespace (Instance params) →
  ownership (Instance params) ⊆ default ∅ (labels_of b) →
  k ∈ identities (desiredServiceAccounts params).
Proof.
  unfold ServiceAccounts.
  destruct (expectedServiceAccounts _ _ c) as [c1 [err|]]; [done|].
  pose proof (deleteServiceAccounts_completed params (desiredServiceAccounts params) c1 k b)
    as Hdel.
  destruct (deleteServiceAccounts _ _ c1) as [c2 [err|]]; [done|].
  intros _. by apply Hdel.
Qed.

(** X6: after a pass that returns no error, every live service account of
    the instance's namespace that carries the two ownership labels has the
    identity of a desired one: no orphan is left. *)
Theorem ServiceAccounts_leaves_no_orphan `{Builders} (params : Params) (c : cluster)
        (k : key) (b : SABody) :
  (ServiceAccounts params c).2 = None →
  live (ServiceAccounts params c).1 !! k = Some b →
  k.1 = V1alpha1.Namespace (Instance params) →
  ownership (Instance params) ⊆ default ∅ (labels_of b) →
  k ∈ identities (desiredServiceAccounts params).
Proof. apply ServiceAccounts_no_orphan_aux. Qed.

Lemma ServiceAccounts_leaves_no_orphan_witness :
  ("monitoring", "agent-collector") ∈ identities (desiredServiceAccounts sample_params).
Proof.
  apply (ServiceAccounts_leaves_no_orphan sample_params
           (cluster_of [owned "agent-collector"; owned "b"] [])
           ("monitoring", "agent-collector") (body_of (owned "agent-collector"))).
  - vm_compute; reflexivity.
  - vm_compute; reflexivity.
  - reflexivity.
  - reflexivity.
Defined.

(** X7: an instance in sidecar mode, or one that names a service account
    of its own, has no desired service account; its pass gets, creates and
    patches nothing, and when it returns no error no owned service account
    of the namespace is left. *)
Theorem ServiceAccounts_without_own_account `{Builders} (params : Params) (c : cluster) :
  V1alpha1.Mode (V1alpha1.Spec (Instance params)) = V1alpha1.ModeSidecar
  ∨ V1alpha1.ServiceAccount (V1alpha1.Spec (Instance params)) ≠ EmptyString →
  desiredServiceAccounts params = []
  ∧ (∃ log, calls (ServiceAccounts params c).1 = calls c ++ log
            ∧ forallb (λ e, negb (reads_or_writes e)) log = true)
  ∧ ((ServiceAccounts params c).2 = None →
     ∀ k b, live (ServiceAccounts params c).1 !! k = Some b →
            k.1 = V1alpha1.Namespace (Instance params) →
            ¬ ownership (Instance params) ⊆ default ∅ (labels_of b)).
Proof.
  intros Hmode.
  assert (desiredServiceAccounts params = []) as Hnone.
  { unfold desiredServiceAccounts. destruct Hmode as [->|Hsa].
    - by rewrite bool_decide_eq_true_2.
    - destruct (V1alpha1.ServiceAccount _); [done|]. simpl. by rewrite andb_false_r. }
  split; [done|]. split.
  - unfold ServiceAccounts. rewrite Hnone. cbn [expectedServiceAccounts].
    destruct (deleteServiceAccounts_calls params [] c) as (log & Hlog & Hall).
    exists log. split; [|done].
    by destruct (deleteServiceAccounts params [] c) as [c2 [err|]].
  - intros Hr k b Hk Hns Hown.
    pose proof (ServiceAccounts_no_orphan_aux params c k b Hr Hk Hns Hown) as Hin.
    rewrite Hnone in Hin. by apply elem_of_nil in Hin.
Qed.

Lemma ServiceAccounts_without_own_account_witness :
  desiredServiceAccounts {| Instance := sidecar_instance |} = [].
Proof.
  exact (proj1 (ServiceAccounts_without_own_account
                  {| Instance := sidecar_instance |} (cluster_of [owned "b"] [])
                  (or_introl eq_refl))).
Defined.

End ReconcilePass.

(** ** The instrumentation upgrade: when the image moves *)

Section BumpFacts.
Import Instrumentation Bump.
Context `{Constants}.

Lemma bumped_bumped (u : InstrumentationUpgrade) (inst : Instrumentation) :
  bumped u (bumped u inst) = bumped u inst.
Proof. unfold bumped. simpl. by rewrite insert_insert_eq. Qed.

(** One turn of the loop while the copy still equals the instance. *)
Lemma upgrade_annotation_first (u : InstrumentationUpgrade) (inst : Instrumentation)
      (evs : list Upgrade.Event) (entry : string * Gate) :
  (upgrade_annotation u inst (inst, evs) entry).1
  = if follows_default inst
       && (bool_decide (entry.1 = AnnotationDefaultAutoInstrumentationJava) && IsEnabled entry.2)
    then bumped u inst else inst.
Proof.
  unfold upgrade_annotation, follows_default, recorded_image. cbn [fst snd].
  destruct (decide (entry.1 = AnnotationDefaultAutoInstrumentationJava)) as [->|Hne].
  - rewrite (bool_decide_eq_true_2 (_ = AnnotationDefaultAutoInstrumentationJava)) by done.
    destruct (bool_decide (default EmptyString _ = EmptyString)); [done|].
    destruct (IsEnabled entry.2); [|by rewrite andb_false_r].
    by destruct (bool_decide (Java_Image inst = _)).
  - rewrite (bool_decide_eq_false_2 (entry.1 = _)) by done.
    rewrite andb_false_r.
    destruct (bool_decide (default EmptyString _ = EmptyString)); [done|].
    by destruct (IsEnabled entry.2).
Qed.

(** One turn of the loop once the copy has been moved. *)
Lemma upgrade_annotation_later (u : InstrumentationUpgrade) (inst : Instrumentation)
      (evs : list Upgrade.Event) (entry : string * Gate) :
  (upgrade_annotation u inst (bumped u inst, evs) entry).1 = bumped u inst.
Proof.
  unfold upgrade_annotation. cbn [fst snd].
  destruct (bool_decide (default EmptyString _ = EmptyString)); [done|].
  destruct (IsEnabled entry.2); [|done].
  destruct (bool_decide (entry.1 = _)) eqn:He; [|done].
  apply bool_decide_eq_true in He.
  destruct (bool_decide (Java_Image inst = _)); [|done].
  cbn [fst]. rewrite He. unfold bumped. simpl. by rewrite insert_insert_eq.
Qed.

Lemma upgrade_fold_later (u : InstrumentationUpgrade) (inst : Instrumentation)
      (entries : list (string * Gate)) (acc : Instrumentation * list Upgrade.Event) :
  acc.1 = bumped u inst →
  (fold_left (upgrade_annotation u inst) entries acc).1 = bumped u inst.
Proof.
  revert acc. induction entries as [|entry rest IH]; intros [a evs] Ha; [done|].
  simpl in Ha. subst a. cbn [fold_left]. apply IH.
  apply upgrade_annotation_later.
Qed.

Lemma upgrade_fold_first (u : InstrumentationUpgrade) (inst : Instrumentation)
      (entries : list (string * Gate)) (acc : Instrumentation * list Upgrade.Event) :
  acc.1 = inst →
  (fold_left (upgrade_annotation u inst) entries acc).1
  = if follows_default inst && java_gate_open entries then bumped u inst else inst.
Proof.
  revert acc. induction entries as [|entry rest IH]; intros [a evs] Ha.
  { simpl in *. by rewrite andb_false_r. }
  simpl in Ha. subst a. cbn [fold_left].
  pose proof (upgrade_annotation_first u inst evs entry) as Hstep.
  unfold java_gate_open in *. cbn [existsb].
  destruct (follows_default inst) eqn:Hf; cbn [andb] in *.
  - destruct (bool_decide (entry.1 = _) && IsEnabled entry.2) eqn:Hfire; cbn [orb].
    + by apply upgrade_fold_later.
    + by apply IH.
  - rewrite (IH _ Hstep). done.
Qed.

(** The result of [upgrade], in closed form. *)
Lemma upgrade_closed_form (u : InstrumentationUpgrade) (inst : Instrumentation) :
  (upgrade u inst).1
  = if follows_default inst && java_gate_open defaultAnnotationToGate
    then bumped u inst else inst.
Proof. by apply upgrade_fold_first. Qed.

(** X8: an instance whose Java annotation is set and names the image the
    instance runs is moved, when the Java gate is enabled, to the default
    image of the upgrader: image and annotation both become that default,
    and nothing else changes. *)
Theorem upgrade_moves_default_image (u : InstrumentationUpgrade) (inst : Instrumentation) :
  recorded_image inst ≠ EmptyString →
  Java_Image inst = recorded_image inst →
  IsEnabled EnableJavaAutoInstrumentationSupport = true →
  (upgrade u inst).1 = bumped u inst
  ∧ Java_Image (upgrade u inst).1 = DefaultAutoInstJava u
  ∧ recorded_image (upgrade u inst).1 = DefaultAutoInstJava u.
Proof.
  intros Hset Himg Hgate.
  assert ((upgrade u inst).1 = bumped u inst) as ->.
  { rewrite upgrade_closed_form. unfold follows_default, java_gate_open.
    rewrite bool_decide_eq_false_2, bool_decide_eq_true_2 by done.
    cbn [defaultAnnotationToGate existsb fst snd negb andb].
    by rewrite bool_decide_eq_true_2, Hgate by done. }
  split; [done|]. split; [done|].
  unfold recorded_image, bumped. simpl. by rewrite lookup_insert_eq.
Qed.

(** X9: an instance whose Java annotation is unset, or names another image
    than the one the instance runs (the image was chosen by the user), is
    returned as it is, whatever the gates. *)
Theorem upgrade_keeps_custom_image (u : InstrumentationUpgrade) (inst : Instrumentation) :
  recorded_image inst = EmptyString ∨ Java_Image inst ≠ recorded_image inst →
  (upgrade u inst).1 = inst.
Proof.
  intros Hcustom. rewrite upgrade_closed_form. unfold follows_default.
  destruct Hcustom as [Hnone|Hother].
  - by rewrite bool_decide_eq_true_2.
  - by rewrite (bool_decide_eq_false_2 (Java_Image inst = _)), andb_false_r.
Qed.

(** X10: [upgrade] is idempotent; it never changes name, namespace or
    labels, nor any annotation but the Java one; and the image it returns
    is the one it was given or the default of the upgrader. *)
Theorem upgrade_idempotent (u : InstrumentationUpgrade) (inst : Instrumentation) :
  (upgrade u (upgrade u inst).1).1 = (upgrade u inst).1
  ∧ Name (upgrade u inst).1 = Name inst
  ∧ Namespace (upgrade u inst).1 = Namespace inst
  ∧ Labels (upgrade u inst).1 = Labels inst
  ∧ (∀ a, a ≠ AnnotationDefaultAutoInstrumentationJava →
          default ∅ (Annotations (upgrade u inst).1) !! a
          = default ∅ (Annotations inst) !! a)
  ∧ (Java_Image (upgrade u inst).1 = Java_Image inst
     ∨ Java_Image (upgrade u inst).1 = DefaultAutoInstJava u).
Proof.
  rewrite (upgrade_closed_form u inst).
  destruct (follows_default inst && java_gate_open defaultAnnotationToGate) eqn:Hc.
  - split.
    + rewrite upgrade_closed_form.
      destruct (follows_default (bumped u inst) && java_gate_open defaultAnnotationToGate);
        [apply bumped_bumped | done].
    + repeat (split; [reflexivity|]). split; [|by right].
      intros a Ha. unfold bumped. simpl. by rewrite lookup_insert_ne.
  - split; [|by repeat split; eauto].
    by rewrite upgrade_closed_form, Hc.
Qed.

End BumpFacts.

Lemma upgrade_moves_default_image_witness :
  Instrumentation.Java_Image (Instrumentation.upgrade Instrumentation.sample_upgrader
                                Instrumentation.outdated).1
  = "java-autoinstrumentation:2".
Proof.
  refine (proj1 (proj2 (@upgrade_moves_default_image Instrumentation.sample_constants
                          Instrumentation.sample_upgrader Instrumentation.outdated
                          _ eq_refl eq_refl))).
  intros Hnone. vm_compute in Hnone. discriminate Hnone.
Defined.

Lemma upgrade_keeps_custom_image_witness :
  (Instrumentation.upgrade Instrumentation.sample_upgrader Instrumentation.settled).1
  = Instrumentation.settled.
Proof.
  apply (@upgrade_keeps_custom_image Instrumentation.sample_constants). left.
  vm_compute. reflexivity.
Defined.

(** ** The instrumentation webhook: defaulting *)

Section DefaulterFacts.
Import Instrumentation Bump Admission.
Context `{Constants}.

(** X11: the defaulter never fails and is idempotent.  It leaves a
    non-empty managed-by label, a non-empty Java image and non-nil resource
    lists as they are, keeps every other label, and always records the
    image of the operator's configuration in the Java annotation; after
    it, the managed-by label is not empty. *)
Theorem defaulter_idempotent (cfg : Config) (r : Admission.Instrumentation) :
  (defaulter cfg r).2 = None
  ∧ (defaulter cfg (defaulter cfg r).1).1 = (defaulter cfg r).1
  ∧ default EmptyString
            (default ∅ (Labels (core (defaulter cfg r).1)) !! "app.kubernetes.io/managed-by")
    ≠ EmptyString
  ∧ (∀ l v, default ∅ (Labels (core r)) !! l = Some v →
            l ≠ "app.kubernetes.io/managed-by" ∨ v ≠ EmptyString →
            default ∅ (Labels (core (defaulter cfg r).1)) !! l = Some v)
  ∧ (Java_Image (core r) ≠ EmptyString →
     Java_Image (core (defaulter cfg r).1) = Java_Image (core r))
  ∧ (∀ l, Java_Limits r = Some l → Java_Limits (defaulter cfg r).1 = Some l)
  ∧ (∀ l, Java_Requests r = Some l → Java_Requests (defaulter cfg r).1 = Some l)
  ∧ recorded_image (core (defaulter cfg r).1) = AutoInstrumentationJavaImage cfg.
Proof.
  split; [reflexivity|].
  set (mb := "app.kubernetes.io/managed-by").
  set (labels0 := default ∅ (Labels (core r))).
  assert (∀ m : gmap string string,
            default EmptyString (m !! mb) ≠ EmptyString →
            (if bool_decide (default EmptyString (m !! mb) = EmptyString)
             then <[mb := "amazon-cloudwatch-agent-operator"]> m else m) = m) as Hkeep.
  { intros m Hm. by rewrite bool_decide_eq_false_2. }
  assert (default EmptyString
            ((if bool_decide (default EmptyString (labels0 !! mb) = EmptyString)
              then <[mb := "amazon-cloudwatch-agent-operator"]> labels0 else labels0) !! mb)
          ≠ EmptyString) as Hset.
  { case_bool_decide as Hc; [by rewrite lookup_insert_eq | done]. }
  split; [|split; [exact Hset|split; [|split; [|split; [|split]]]]].
  - clear Hset. subst labels0.
    destruct r as [[name ns ls an img] lim req st sa env jenv].
    unfold defaulter. simpl. fold mb. f_equal.
    + f_equal.
      * f_equal. apply Hkeep.
        case_bool_decide as Hc; [by rewrite lookup_insert_eq | done].
      * f_equal. apply insert_insert_eq.
      * destruct (bool_decide (img = EmptyString)) eqn:Hi; [|by rewrite Hi].
        by destruct (bool_decide (AutoInstrumentationJavaImage cfg = EmptyString)).
    + by destruct lim.
    + by destruct req.
  - intros l v Hl Hor. unfold defaulter. cbn [fst core Labels default from_option id].
    fold mb. fold labels0. case_bool_decide as Hc; [|done].
    destruct (decide (l = mb)) as [->|Hne]; [|by rewrite lookup_insert_ne].
    fold labels0 in Hl. rewrite Hl in Hc. simpl in Hc. by destruct Hor.
  - intros Hi. unfold defaulter. cbn [fst core Java_Image].
    by rewrite bool_decide_eq_false_2.
  - intros l Hl. unfold defaulter. cbn [fst Java_Limits]. by rewrite Hl.
  - intros l Hl. unfold defaulter. cbn [fst Java_Requests]. by rewrite Hl.
  - unfold recorded_image, defaulter. cbn [fst core Annotations default from_option id].
    by rewrite lookup_insert_eq.
Qed.

(** X12: defaulting followed by upgrading.  With a non-empty operator image
    and the Java gate enabled: an instance that comes without image, or
    with the very image of the operator, is defaulted to that image and
    then moved by the upgrader to the upgrader's default; an instance that
    comes with another image keeps it through both. *)
Theorem defaulted_image_follows_operator (cfg : Config) (u : InstrumentationUpgrade)
        (r : Admission.Instrumentation) :
  AutoInstrumentationJavaImage cfg ≠ EmptyString →
  IsEnabled EnableJavaAutoInstrumentationSupport = true →
  (Java_Image (core r) = EmptyString ∨ Java_Image (core r) = AutoInstrumentationJavaImage cfg →
   Java_Image (upgrade u (core (defaulter cfg r).1)).1 = DefaultAutoInstJava u)
  ∧ (Java_Image (core r) ≠ EmptyString →
     Java_Image (core r) ≠ AutoInstrumentationJavaImage cfg →
     Java_Image (upgrade u (core (defaulter cfg r).1)).1 = Java_Image (core r)).
Proof.
  intros Hcfg Hgate.
  assert (recorded_image (core (defaulter cfg r).1) = AutoInstrumentationJavaImage cfg)
    as Hrec.
  { unfold recorded_image, defaulter. cbn [fst core Annotations default from_option id].
    by rewrite lookup_insert_eq. }
  assert (java_gate_open defaultAnnotationToGate = true) as Hopen.
  { unfold java_gate_open. cbn [defaultAnnotationToGate existsb fst snd].
    by rewrite bool_decide_eq_true_2, Hgate by done. }
  rewrite upgrade_closed_form, Hopen, andb_true_r.
  unfold follows_default. rewrite Hrec.
  rewrite (bool_decide_eq_false_2 (_ = EmptyString)) by done. cbn [negb andb].
  split.
  - intros Himg.
    assert (Java_Image (core (defaulter cfg r).1) = AutoInstrumentationJavaImage cfg) as ->.
    { unfold defaulter. cbn [fst core Java_Image].
      destruct Himg as [->| ->]; [done|]. by rewrite bool_decide_eq_false_2. }
    by rewrite bool_decide_eq_true_2.
  - intros Hne Hother.
    assert (Java_Image (core (defaulter cfg r).1) = Java_Image (core r)) as Hsame.
    { unfold defaulter. cbn [fst core Java_Image]. by rewrite bool_decide_eq_false_2. }
    rewrite Hsame. by rewrite bool_decide_eq_false_2.
Qed.

End DefaulterFacts.

Lemma defaulted_image_follows_operator_witness :
  Instrumentation.Java_Image
    (Instrumentation.upgrade Instrumentation.sample_upgrader
       (Admission.core (Admission.defaulter Admission.sample_config
                          (Admission.bare EmptyString)).1)).1
  = "java-autoinstrumentation:2".
Proof.
  refine (proj1 (@defaulted_image_follows_operator Instrumentation.sample_constants
                   Admission.sample_config Instrumentation.sample_upgrader
                   (Admission.bare EmptyString) _ eq_refl) (or_introl eq_refl)).
  discriminate.
Defined.

(** ** The instrumentation webhook: sampler and environment *)

Section SamplerFacts.
Import Admission.
Context `{Strconv} `{SamplerNames}.

Lemma length_split_on (sep : ascii) (l : list ascii) :
  length (Yaml.split_on sep l)
  = S (length (List.filter (λ x, bool_decide (x = sep)) l)).
Proof.
  induction l as [|c l IH]; [done|]. cbn [Yaml.split_on List.filter].
  destruct (decide (c = sep)) as [->|Hne].
  - rewrite bool_decide_eq_true_2 by done. simpl. by rewrite IH.
  - rewrite bool_decide_eq_false_2 by done.
    destruct (Yaml.split_on sep l); simpl in *; lia.
Qed.

(** A part that splits in two holds the separator once. *)
Lemma Split_pair (part k v : string) (sep : ascii) :
  Split part sep = [k; v] → occurrences sep part = 1.
Proof.
  intros Hs. apply (f_equal length) in Hs. unfold Split in Hs.
  rewrite length_fmap, length_split_on in Hs. unfold occurrences. simpl in Hs. lia.
Qed.

Lemma check_parts_pairs (parts : list string) :
  check_parts parts = None → Forall (λ part, occurrences "="%char part = 1) parts.
Proof.
  induction parts as [|part rest IH]; [constructor|].
  cbn [check_parts]. intros Hc.
  destruct (Split part "="%char) as [|k [|v [|x more]]] eqn:Hs; try discriminate.
  destruct (check_pair k v); [discriminate|].
  constructor; [by eapply Split_pair | by apply IH].
Qed.

(** X13: an argument that [validateJaegerRemoteSamplerArgument] accepts is
    not empty, and each of its comma-separated parts holds the sign [=]
    exactly once; so a part without [=], and a value that itself contains
    [=], are rejected. *)
Theorem validateJaegerRemoteSamplerArgument_accepts_pairs (argument : string) :
  validateJaegerRemoteSamplerArgument argument = None →
  argument ≠ EmptyString
  ∧ Forall (λ part, occurrences "="%char part = 1) (Split argument ","%char).
Proof.
  intros Hok. split; [|by apply check_parts_pairs].
  intros ->. discriminate Hok.
Qed.

Lemma validate_env_spec (warnings : list string) (r : Admission.Instrumentation) :
  (validate_env warnings r).1 = warnings
  ∧ ((validate_env warnings r).2 = None ↔ Forall Webhook.accepted (Env r ++ Java_Env r)).
Proof.
  unfold validate_env. rewrite Forall_app, <- !validateEnv_None.
  destruct (Webhook.validateEnv (Env r)), (Webhook.validateEnv (Java_Env r));
    simpl; intuition congruence.
Qed.

Lemma known_samplers_spec (t : string) :
  (bool_decide (t = TraceIDRatio) || bool_decide (t = ParentBasedTraceIDRatio)) = true
  ∨ (bool_decide (t = JaegerRemote) || bool_decide (t = ParentBasedJaegerRemote)) = true
  ∨ (bool_decide (t = AlwaysOn) || bool_decide (t = AlwaysOff)
     || bool_decide (t = ParentBasedAlwaysOn) || bool_decide (t = ParentBasedAlwaysOff)
     || bool_decide (t = XRaySampler)) = true
  ↔ t ∈ known_samplers.
Proof.
  unfold known_samplers. rewrite !orb_true_iff, !bool_decide_eq_true, !elem_of_cons.
  rewrite elem_of_nil. tauto.
Qed.

(** X14: with an empty sampler argument, [validate] returns no error
    exactly when the sampler type is empty or one of the nine known names
    and every name of [Spec.Env] and of [Spec.Java.Env] is accepted; and
    whatever the argument, it warns, with the one warning "sampler type not
    set", exactly when the sampler type is empty. *)
Theorem validate_without_argument (r : Admission.Instrumentation) :
  Sampler_Argument r = EmptyString →
  ((validate r).2 = None
   ↔ (Sampler_Type r = EmptyString ∨ Sampler_Type r ∈ known_samplers)
     ∧ Forall Webhook.accepted (Env r ++ Java_Env r))
  ∧ (validate r).1
    = if bool_decide (Sampler_Type r = EmptyString) then ["sampler type not set"] else [].
Proof.
  intros Harg. unfold validate. rewrite Harg.
  rewrite (bool_decide_eq_true_2 (EmptyString = EmptyString)) by done.
  pose proof (known_samplers_spec (Sampler_Type r)) as Hknown.
  destruct (bool_decide (Sampler_Type r = EmptyString)) eqn:Hempty.
  { apply bool_decide_eq_true in Hempty.
    destruct (validate_env_spec ["sampler type not set"] r) as [-> ->]. tauto. }
  apply bool_decide_eq_false in Hempty.
  destruct (bool_decide (Sampler_Type r = TraceIDRatio) || _) eqn:H1.
  { destruct (validate_env_spec [] r) as [-> ->]. tauto. }
  destruct (bool_decide (Sampler_Type r = JaegerRemote) || _) eqn:H2.
  { destruct (validate_env_spec [] r) as [-> ->]. tauto. }
  destruct (bool_decide (Sampler_Type r = AlwaysOn) || _ || _ || _ || _) eqn:H3.
  { destruct (validate_env_spec [] r) as [-> ->]. tauto. }
  split; [|done]. simpl. split; [discriminate|].
  intros [[?|Hin] _]; [done|]. apply Hknown in Hin.
  destruct Hin as [?|[?|?]]; discriminate.
Qed.

(** X15: whatever the sampler argument, when [validate] returns no error
    the sampler type is empty or known and every name of the two lists of
    environment variables is accepted. *)
Theorem validate_accepts_only_accepted_env (r : Admission.Instrumentation) :
  (validate r).2 = None →
  (Sampler_Type r = EmptyString ∨ Sampler_Type r ∈ known_samplers)
  ∧ Forall Webhook.accepted (Env r ++ Java_Env r).
Proof.
  unfold validate.
  pose proof (known_samplers_spec (Sampler_Type r)) as Hknown.
  pose proof (validate_env_spec ["sampler type not set"] r) as [_ Hw].
  pose proof (validate_env_spec [] r) as [_ He].
  destruct (bool_decide (Sampler_Type r = EmptyString)) eqn:Hempty.
  { apply bool_decide_eq_true in Hempty. intros Hok. split; [by left | by apply Hw]. }
  destruct (bool_decide (Sampler_Type r = TraceIDRatio) || _) eqn:H1.
  { intros Hok. split; [right; apply Hknown; by left|].
    destruct (bool_decide (Sampler_Argument r = EmptyString)); [by apply He|].
    destruct (ParseFloat (Sampler_Argument r)) as [rate|]; [|discriminate].
    destruct (below_zero rate || above_one rate); [discriminate | by apply He]. }
  destruct (bool_decide (Sampler_Type r = JaegerRemote) || _) eqn:H2.
  { intros Hok. split; [right; apply Hknown; right; by left|].
    destruct (bool_decide (Sampler_Argument r = EmptyString)); [by apply He|].
    destruct (validateJaegerRemoteSamplerArgument _); [discriminate | by apply He]. }
  destruct (bool_decide (Sampler_Type r = AlwaysOn) || _ || _ || _ || _) eqn:H3.
  { intros Hok. split; [right; apply Hknown; right; by right | by apply He]. }
  discriminate.
Qed.

End SamplerFacts.

Lemma validateJaegerRemoteSamplerArgument_accepts_pairs_witness :
  Forall (λ part, Admission.occurrences "="%char part = 1)
         (Admission.Split "endpoint=http://localhost:14250,pollingIntervalMs=5000" ","%char).
Proof.
  refine (proj2 (@validateJaegerRemoteSamplerArgument_accepts_pairs Admission.sample_strconv
                   "endpoint=http://localhost:14250,pollingIntervalMs=5000" _)).
  vm_compute. reflexivity.
Defined.

Lemma validate_without_argument_witness :
  (Admission.validate Admission.unsampled).1 = ["sampler type not set"].
Proof.
  exact (proj2 (@validate_without_argument Admission.sample_strconv Admission.sample_samplers
                  Admission.unsampled eq_refl)).
Defined.

Lemma validate_accepts_only_accepted_env_witness :
  Forall Webhook.accepted
         (Admission.Env (Admission.bare EmptyString)
          ++ Admission.Java_Env (Admission.bare EmptyString)).
Proof.
  refine (proj2 (@validate_accepts_only_accepted_env Admission.sample_strconv
                   Admission.sample_samplers (Admission.bare EmptyString) _)).
  vm_compute. reflexivity.
Defined.

(** ** The ServiceAccount reconciler on a store that answers normally *)

Section ClientHealthy.
Import Client.
Context {Obj : Type} `{Resource Obj}.

Lemma injected_none (c : cluster Obj) : faults c = [] → injected c = None.
Proof. unfold injected. by intros ->. Qed.

Lemma answered_healthy (cl : call Obj) (err : option error) (objs : gmap key Body)
      (c : cluster Obj) :
  faults c = [] → faults (answered cl err objs c) = [].
Proof. simpl. by intros ->. Qed.

Lemma Get_healthy (k : key) (c : cluster Obj) :
  faults c = [] →
  Get k c
  = match live c !! k with
    | Some b => (answered (CallGet k) None (live c) c, inr (object_of k b))
    | None => (answered (CallGet k) (Some StatusNotFound) (live c) c, inl StatusNotFound)
    end.
Proof. intros Hf. unfold Get. by rewrite (injected_none c Hf). Qed.

Lemma Create_healthy (o : Obj) (c : cluster Obj) :
  faults c = [] → live c !! key_of o = None →
  Create o c = (answered (CallCreate o) None (<[key_of o := body_of o]> (live c)) c, None).
Proof. intros Hf Hl. unfold Create. by rewrite (injected_none c Hf), Hl. Qed.

Lemma Patch_healthy (updated existing : Obj) (c : cluster Obj) :
  faults c = [] → is_Some (live c !! key_of updated) →
  Patch updated existing c
  = (answered (CallPatch updated existing) None
              (<[key_of updated := body_of updated]> (live c)) c, None).
Proof. intros Hf [b Hl]. unfold Patch. by rewrite (injected_none c Hf), Hl. Qed.

Lemma Delete_healthy (o : Obj) (c : cluster Obj) :
  faults c = [] → is_Some (live c !! key_of o) →
  Delete o c = (answered (CallDelete o) None (delete (key_of o) (live c)) c, None).
Proof. intros Hf [b Hl]. unfold Delete. by rewrite (injected_none c Hf), Hl. Qed.

Lemma List_healthy (namespace : option string) (selector : labels) (c : cluster Obj) :
  faults c = [] →
  List namespace selector c
  = (answered (CallList namespace selector) None (live c) c,
     inr (selected namespace selector (live c))).
Proof. intros Hf. unfold List. by rewrite (injected_none c Hf). Qed.

End ClientHealthy.

Section ReconcileHealthy.
Import Client Reconcile Phase.

#[local] Abbreviation SABody := (@Body ServiceAccount ServiceAccount_resource).

Lemma delete_items_healthy (expected items : list ServiceAccount) (c : cluster) :
  faults c = [] →
  NoDup (key_of <$> items) →
  (∀ o, o ∈ items → is_Some (live c !! key_of o)) →
  (delete_items expected items c).2 = None.
Proof.
  revert c. induction items as [|existing rest IH]; intros c Hf Hnd Hlive; [done|].
  cbn [delete_items].
  destruct (kept expected existing).
  { apply IH; [done | by apply NoDup_cons in Hnd as [_ ?]|].
    intros o Ho. apply Hlive. by right. }
  apply NoDup_cons in Hnd as [Hfresh Hnd].
  rewrite (Delete_healthy existing c Hf) by (apply Hlive; by left).
  apply IH; [by apply answered_healthy | done|].
  intros o Ho. cbn [live answered]. rewrite lookup_delete_ne.
  - apply Hlive. by right.
  - intros Heq. apply Hfresh. rewrite Heq. by apply list_elem_of_fmap_2.
Qed.

Lemma selected_NoDup (namespace : option string) (selector : labels) (objs : gmap key SABody) :
  NoDup (key_of <$> selected namespace selector objs).
Proof.
  unfold selected. rewrite <- list_fmap_compose.
  rewrite (list_fmap_ext _ fst).
  - eapply sublist_NoDup; [apply (NoDup_fst_map_to_list objs)|].
    apply fmap_sublist, sublist_filter.
  - intros i [k b] _. apply (key_of_object k b).
Qed.

Section WithBuilders.
Context `{Builders}.

(** On a store that answers normally the create-and-update phase ends
    without error, and the store still answers normally. *)
Lemma expectedServiceAccounts_healthy (params : Params) (expected : list ServiceAccount)
      (c : cluster) :
  faults c = [] →
  (∀ obj, obj ∈ expected →
          ∃ desired, SetControllerReference (Instance params) obj = inr desired) →
  (expectedServiceAccounts params expected c).2 = None
  ∧ faults (expectedServiceAccounts params expected c).1 = [].
Proof.
  revert c. induction expected as [|obj rest IH]; intros c Hf Hset; [done|].
  destruct (Hset obj) as [desired Hd]; [by left|].
  assert (∀ o, o ∈ rest → ∃ d, SetControllerReference (Instance params) o = inr d) as Hrest.
  { intros o Ho. apply Hset. by right. }
  cbn [expectedServiceAccounts]. rewrite Hd.
  rewrite (Get_healthy _ c Hf).
  destruct (live c !! (Namespace desired, Name desired)) as [b|] eqn:Hb.
  - rewrite Patch_healthy.
    + apply IH; [|done]. do 2 apply answered_healthy. done.
    + by apply answered_healthy.
    + cbn [live answered]. by eexists.
  - cbn [IsNotFound]. rewrite Create_healthy.
    + apply IH; [|done]. do 2 apply answered_healthy. done.
    + by apply answered_healthy.
    + exact Hb.
Qed.

(** X17: on a store that answers normally, and when the controller
    reference can be set on every desired object without changing its
    identity, the pass returns no error and every desired object is live
    afterwards. *)
Theorem ServiceAccounts_succeeds_on_healthy_store (params : Params) (c : cluster) :
  faults c = [] →
  (∀ obj, obj ∈ desiredServiceAccounts params →
          ∃ desired, SetControllerReference (Instance params) obj = inr desired
                     ∧ (Namespace desired, Name desired) = (Namespace obj, Name obj)) →
  (ServiceAccounts params c).2 = None
  ∧ ∀ obj, obj ∈ desiredServiceAccounts params →
           is_Some (live (ServiceAccounts params c).1 !! (Namespace obj, Name obj)).
Proof.
  intros Hf Hset. unfold ServiceAccounts.
  set (wanted := desiredServiceAccounts params) in *.
  destruct (expectedServiceAccounts_healthy params wanted c Hf) as [Hok Hf1].
  { intros obj Hobj. destruct (Hset obj Hobj) as (d & Hd & _). eauto. }
  destruct (expectedServiceAccounts_phase params wanted c) as (_ & _ & _ & _ & _ & Hlive).
  destruct (expectedServiceAccounts params wanted c) as [c1 r1]. cbn [fst snd] in *.
  subst r1. specialize (Hlive eq_refl).
  unfold deleteServiceAccounts. rewrite (List_healthy _ _ c1 Hf1).
  set (ns := V1alpha1.Namespace (Instance params)).
  set (sel := ownership (Instance params)).
  set (c2 := answered (CallList (Some ns) sel) None (live c1) c1).
  set (items := selected (Some ns) sel (live c1)).
  assert ((delete_items wanted items c2).2 = None) as Hdel.
  { apply delete_items_healthy; [by apply answered_healthy | apply selected_NoDup|].
    intros o [Hlk _]%elem_of_selected. by eexists. }
  destruct (delete_items_spec wanted items c2) as (log & _ & _ & Hframe & _).
  destruct (delete_items wanted items c2) as [c3 r3]. cbn [fst snd] in *. subst r3.
  split; [done|]. intros obj Hobj.
  rewrite Hframe.
  - destruct (Hset obj Hobj) as (d & Hd & Hkey).
    destruct (Hlive obj Hobj) as (d' & Hd' & Hsome).
    rewrite Hd in Hd'. injection Hd' as <-. by rewrite <- Hkey.
  - intros [Hnot _]%elem_of_orphan_identities. apply Hnot.
    apply list_elem_of_fmap. by exists obj.
Qed.

End WithBuilders.

Lemma ServiceAccounts_succeeds_on_healthy_store_witness :
  (ServiceAccounts sample_params (cluster_of [owned "a"; owned "b"] [])).2 = None.
Proof.
  refine (proj1 (ServiceAccounts_succeeds_on_healthy_store sample_params
                   (cluster_of [owned "a"; owned "b"] []) eq_refl _)).
  intros obj Hobj. eexists. split; reflexivity.
Defined.

End ReconcileHealthy.

(** ** The ServiceAccount reconciler: what the deletion phase collects *)

Section ReconcileCollection.
Import Client Reconcile.

(** On a store that answers normally the deletion phase ends without
    error: what it deletes has just been listed. *)
Lemma deleteServiceAccounts_healthy (params : Params) (expected : list ServiceAccount)
      (c : cluster) :
  faults c = [] → (deleteServiceAccounts params expected c).2 = None.
Proof.
  intros Hf. unfold deleteServiceAccounts. rewrite (List_healthy _ _ c Hf).
  apply delete_items_healthy; [by apply answered_healthy | apply selected_NoDup|].
  intros o [Hlk _]%elem_of_selected. by eexists.
Qed.

(** C1, as amended: whatever the store answers, [deleteServiceAccounts]
    asks it to delete only live objects of the instance's namespace that
    carry the two ownership labels and whose identity is not in the desired
    set, and it neither deletes nor changes an object whose identity is in
    the desired set.  The phase returns no error exactly when its list call
    and every delete call were answered without error, which is the case on
    a store that answers normally; and then every such orphan has been
    asked for and is gone. *)
Theorem deleteServiceAccounts_garbage_collection (params : Params)
        (expected : list ServiceAccount) (c : cluster) :
  ∃ log,
    calls (deleteServiceAccounts params expected c).1 = calls c ++ log
    ∧ (∀ k, k ∈ deleted_keys log →
            (k ∉ identities expected)
            ∧ (∃ b, live c !! k = Some b
                    ∧ k.1 = V1alpha1.Namespace (Instance params)
                    ∧ ownership (Instance params) ⊆ default ∅ (labels_of b)))
    ∧ (∀ k, k ∈ identities expected →
            (k ∉ deleted_keys log)
            ∧ live (deleteServiceAccounts params expected c).1 !! k = live c !! k)
    ∧ ((deleteServiceAccounts params expected c).2 = None ↔ ∀ e, e ∈ log → e.2 = None)
    ∧ ((deleteServiceAccounts params expected c).2 = None →
       ∀ k b, live c !! k = Some b →
              k.1 = V1alpha1.Namespace (Instance params) →
              ownership (Instance params) ⊆ default ∅ (labels_of b) →
              k ∉ identities expected →
              k ∈ deleted_keys log
              ∧ live (deleteServiceAccounts params expected c).1 !! k = None)
    ∧ (faults c = [] → (deleteServiceAccounts params expected c).2 = None).
Proof.
  destruct (deleteServiceAccounts_orphans params expected c)
    as (log & Hlog & Honly & Hkeep & Hall).
  destruct (deleteServiceAccounts_result params expected c) as (log' & Hlog' & Hiff & _).
  rewrite Hlog in Hlog'. apply app_inv_head in Hlog' as <-.
  exists log. repeat (split; [done|]). apply deleteServiceAccounts_healthy.
Qed.

(** The sample of the specification, on a store that answers normally:
    live [a], [b], [c], all owned; desired [a], [c].  The phase returns no
    error, exactly [b] is asked for and is gone, [a] and [c] are as they
    were. *)
Lemma deleteServiceAccounts_garbage_collection_witness :
  let c := cluster_of [owned "a"; owned "b"; owned "c"] [] in
  let out := deleteServiceAccounts sample_params [owned "a"; owned "c"] c in
  out.2 = None
  ∧ (∀ k, k ∈ deleted_keys (calls out.1) ↔ k = ("monitoring", "b"))
  ∧ live out.1 !! ("monitoring", "b") = None
  ∧ live out.1 !! ("monitoring", "a") = Some (body_of (owned "a"))
  ∧ live out.1 !! ("monitoring", "c") = Some (body_of (owned "c")).
Proof.
  intros c out.
  destruct (deleteServiceAccounts_garbage_collection sample_params [owned "a"; owned "c"] c)
    as (log & Hlog & Honly & Hkeep & _ & Hall & Hok).
  fold out in Hlog, Hkeep, Hall, Hok.
  specialize (Hok eq_refl).
  assert (live c !! ("monitoring", "b") = Some (body_of (owned "b"))) as Hb
      by (vm_compute; reflexivity).
  assert (("monitoring", "b") ∉ identities [owned "a"; owned "c"]) as Hnb.
  { intros [[=]|[[=]|[]%elem_of_nil]%elem_of_cons]%elem_of_cons. }
  assert (ownership (Instance sample_params) ⊆ default ∅ (labels_of (body_of (owned "b"))))
    as Hsub.
  { change (ownership sample_instance ⊆ ownership sample_instance). reflexivity. }
  destruct (Hall Hok _ _ Hb eq_refl Hsub Hnb) as [_ Hgone].
  assert (deleted_keys (calls out.1) = [("monitoring", "b")]) as Hkeys
      by (vm_compute; reflexivity).
  split; [exact Hok|]. split; [|split; [exact Hgone|]].
  - intros k. rewrite Hkeys. apply list_elem_of_singleton.
  - assert (("monitoring", "a") ∈ identities [owned "a"; owned "c"]) as Ha
        by apply list_elem_of_here.
    assert (("monitoring", "c") ∈ identities [owned "a"; owned "c"]) as Hc
        by apply list_elem_of_further, list_elem_of_here.
    rewrite (proj2 (Hkeep _ Ha)), (proj2 (Hkeep _ Hc)).
    split; vm_compute; reflexivity.
Defined.

(** The same sample on a store that answers the list call and then fails
    the delete call: [b] is live, in the namespace, owned, and not desired,
    yet the phase returns the error and [b] is still live. *)
Lemma deleteServiceAccounts_stops_at_failed_delete :
  let c := cluster_of [owned "a"; owned "b"; owned "c"]
                      [None; Some (ErrOther "connection refused")] in
  let out := deleteServiceAccounts sample_params [owned "a"; owned "c"] c in
  live c !! ("monitoring", "b") = Some (body_of (owned "b"))
  ∧ V1alpha1.Namespace (Instance sample_params) = "monitoring"
  ∧ ownership (Instance sample_params) ⊆ default ∅ (labels_of (body_of (owned "b")))
  ∧ (("monitoring", "b") ∉ identities [owned "a"; owned "c"])
  ∧ out.2 = Some (Errorf "failed to delete" (ErrOther "connection refused"))
  ∧ calls out.1
    = [(CallList (Some "monitoring") (ownership sample_instance), None);
       (CallDelete (owned "b"), Some (ErrOther "connection refused"))]
  ∧ live out.1 !! ("monitoring", "b") = Some (body_of (owned "b")).
Proof.
  intros c out.
  split; [vm_compute; reflexivity|]. split; [reflexivity|].
  split; [change (ownership sample_instance ⊆ ownership sample_instance); reflexivity|].
  split; [intros [[=]|[[=]|[]%elem_of_nil]%elem_of_cons]%elem_of_cons|].
  split; [vm_compute; reflexivity|]. split; [vm_compute; reflexivity|].
  vm_compute; reflexivity.
Qed.

End ReconcileCollection.

(** ** The instrumentation batch upgrader: errors *)

Section ManagedInstancesFacts.
Import Client Instrumentation.
Context `{Constants}.

(** X16: [ManagedInstances] fails only when the list call fails, and then
    it has asked for no update; otherwise it returns no error whatever the
    updates are answered, and it has asked, for every listed instance in
    turn, for the update of its upgraded copy. *)
Theorem ManagedInstances_fails_only_on_list (u : InstrumentationUpgrade) (c : cluster) :
  match injected c with
  | Some e =>
      (ManagedInstances u c).2 = Some (Errorf "failed to list" e)
      ∧ updates (calls (ManagedInstances u c).1.1) = updates (calls c)
      ∧ live (ManagedInstances u c).1.1 = live c
  | None =>
      (ManagedInstances u c).2 = None
      ∧ updates (calls (ManagedInstances u c).1.1)
        = updates (calls c) ++ ((λ inst, (upgrade u inst).1) <$> selected None managed (live c))
  end.
Proof.
  assert (∀ err, updates [(CallList None managed, err)] = []) as Hlist by done.
  unfold ManagedInstances, List.
  destruct (injected c) as [e|].
  - cbn [fst snd calls live answered]. by rewrite updates_app, Hlist, app_nil_r.
  - cbn [fst snd]. split; [done|].
    rewrite upgrade_items_updates. cbn [calls live answered].
    by rewrite updates_app, Hlist, app_nil_r.
Qed.

End ManagedInstancesFacts.
